(** * fix-db-imports.py: the route-handler patcher

    A shallow embedding of the maintenance script [fix-db-imports.py] and the
    properties of its two regular-expression substitutions and of its
    per-file read / transform / write / report loop.

    Layout:
    - [Text]    Python [str] values as lists of code points;
    - [Re]      the fragment of Python's [re] the script uses: a backtracking
                matcher, [re.search], [re.subn] and [re.sub];
    - [Patch]   the script's constants, its two patterns and templates;
    - [Script]  the filesystem, the exceptions and the main loop;
    - [Posix]   the script as a process: paths that lead to files, newline
                translation, reads that block, a standard output that may
                refuse, the exit status;
    - lemmas and theorems. *)

From Stdlib Require Import String Ascii NArith Bool Arith Lia List.
Import ListNotations.

(* ------------------------------------------------------------------ *)
(** * Text *)

Module Text.

(** A Python [str] is a sequence of Unicode code points. *)
Definition char := N.
Definition text := list char.

(** Reading a literal of the script: its characters are all ASCII. *)
Definition str (s : string) : text :=
  List.map N_of_ascii (list_ascii_of_string s).

Definition nl : char := 10%N.        (* line feed *)
Definition rbrace : char := 125%N.   (* closing brace *)

(** [\s] on [str] patterns is [Py_UNICODE_ISSPACE]: the ASCII white space
    (tab, line feed, vertical tab, form feed, carriage return, the four
    separators 0x1C..0x1F and the space) and the Unicode white space
    (bidirectional type WS, B or S, or category Zs). *)
Definition is_space (c : char) : bool :=
  ((9 <=? c) && (c <=? 13) || (28 <=? c) && (c <=? 32)
   || (c =? 133) || (c =? 160) || (c =? 5760)
   || (8192 <=? c) && (c <=? 8202)
   || (c =? 8232) || (c =? 8233) || (c =? 8239) || (c =? 8287)
   || (c =? 12288))%N.

(** The longest run of white space at the head of a text is dropped. *)
Fixpoint lstrip (s : text) : text :=
  match s with
  | c :: s' => if is_space c then lstrip s' else s
  | [] => []
  end.

Definition blank (s : text) : bool := forallb is_space s.

(** [starts_blank s]: the first character of [s] exists and is white. *)
Definition starts_blank (s : text) : bool :=
  match s with
  | c :: _ => is_space c
  | [] => false
  end.

Fixpoint text_eqb (a b : text) : bool :=
  match a, b with
  | [], [] => true
  | x :: a', y :: b' => (x =? y)%N && text_eqb a' b'
  | _, _ => false
  end.

(** [prefixb p s]: [s] starts with [p] ([str.startswith]). *)
Fixpoint prefixb (p s : text) : bool :=
  match p, s with
  | [], _ => true
  | x :: p', y :: s' => (x =? y)%N && prefixb p' s'
  | _ :: _, [] => false
  end.

(** Number of (possibly overlapping) occurrences of [p] in [s]. *)
Fixpoint occurrences (p s : text) : nat :=
  match s with
  | [] => if prefixb p [] then 1 else 0
  | _ :: s' => (if prefixb p s then 1 else 0) + occurrences p s'
  end.

End Text.
Import Text.

(* ------------------------------------------------------------------ *)
(** * The fragment of [re] used by the script *)

Module Re.

(** Pattern syntax.  The script's patterns are built from literal
    characters (escaped or not), a set of two quote characters, the
    category [\s] under
    [+] and [*], one capturing group and [$]. *)
Inductive regex : Type :=
| Lit (c : char)                  (* a literal character *)
| Class (p : char -> bool)        (* a set or a category *)
| Plus (p : char -> bool)         (* [X+], greedy, X one character wide *)
| Star (p : char -> bool)         (* [X*], greedy *)
| Cat (r1 r2 : regex)             (* concatenation *)
| Group (r : regex)               (* [( r )], group 1 *)
| Eos                             (* [$] without MULTILINE *)
| Eps.                            (* the empty pattern *)

(** A literal string as a pattern. *)
Fixpoint lits (l : text) : regex :=
  match l with
  | [] => Eps
  | c :: l' => Cat (Lit c) (lits l')
  end.

Section Matcher.
Context {A : Type}.

(** Greedy repetition of a one-character class with backtracking: the
    longest run is tried first, then shorter ones. *)
Fixpoint greedy (p : char -> bool) (k : text -> option A) (s : text)
  : option A :=
  match s with
  | c :: s' =>
      if p c then
        match greedy p k s' with
        | Some r => Some r
        | None => k s
        end
      else k s
  | [] => k []
  end.

(** [rmatch r s g k]: match [r] at the head of [s]; [g] is the text of
    group 1 so far, [k] the continuation, called on the unread rest.
    [None] is a failure, which makes the caller backtrack. *)
Fixpoint rmatch (r : regex) (s : text) (g : option text)
         (k : text -> option text -> option A) : option A :=
  match r with
  | Lit c =>
      match s with
      | x :: s' => if (x =? c)%N then k s' g else None
      | [] => None
      end
  | Class p =>
      match s with
      | x :: s' => if p x then k s' g else None
      | [] => None
      end
  | Plus p =>
      match s with
      | x :: s' => if p x then greedy p (fun t => k t g) s' else None
      | [] => None
      end
  | Star p => greedy p (fun t => k t g) s
  | Cat r1 r2 => rmatch r1 s g (fun t g' => rmatch r2 t g' k)
  | Group r1 =>
      rmatch r1 s g
             (fun t _ => k t (Some (firstn (length s - length t) s)))
  | Eos =>
      (* end of the string, or just before a newline that ends it *)
      match s with
      | [] => k s g
      | [c] => if (c =? nl)%N then k s g else None
      | _ => None
      end
  | Eps => k s g
  end.
End Matcher.

(** A match object: the text of group 1 and the text after the match. *)
Record rmatch_obj := MatchObj { group1 : option text; after : text }.

(** [re.match]: the pattern at the head of the text. *)
Definition re_match (r : regex) (s : text) : option rmatch_obj :=
  rmatch r s None (fun t g => Some (MatchObj g t)).

Definition matches (r : regex) (s : text) : bool :=
  match re_match r s with Some _ => true | None => false end.

(** [re.search(...) is not None]: the pattern matches at some position. *)
Fixpoint re_search (r : regex) (s : text) : bool :=
  matches r s ||
  match s with
  | [] => false
  | _ :: s' => re_search r s'
  end.

(** The positions at which the pattern matches, counted from [i]. *)
Fixpoint match_positions_from (i : nat) (r : regex) (s : text) : list nat :=
  (if matches r s then [i] else []) ++
  match s with
  | [] => []
  | _ :: s' => match_positions_from (S i) r s'
  end.

Definition match_positions (r : regex) (s : text) : list nat :=
  match_positions_from 0 r s.

(** Replacement templates: literal characters and [\1]. *)
Inductive titem : Type :=
| TChr (c : char)
| TGroup1.

Definition template := list titem.

Definition tlits (l : text) : template := List.map TChr l.

(** A group that did not take part in the match expands to nothing. *)
Fixpoint expand (t : template) (g : option text) : text :=
  match t with
  | [] => []
  | TChr c :: t' => c :: expand t' g
  | TGroup1 :: t' =>
      match g with Some x => x | None => [] end ++ expand t' g
  end.

(** [re.subn] with [count=0]: the leftmost non-overlapping matches are
    replaced, the text between them is copied.  [fuel] bounds the number
    of scanning steps; [re_subn] supplies enough of it. *)
Fixpoint subn_from (fuel : nat) (r : regex) (t : template) (s : text)
  : text * nat :=
  match fuel with
  | 0 => (s, 0)
  | S fuel' =>
      match re_match r s with
      | Some m =>
          if length (after m) <? length s then
            let (out, n) := subn_from fuel' r t (after m) in
            (expand t (group1 m) ++ out, S n)
          else
            (* an empty match: replaced, and the scan moves on by one *)
            match s with
            | [] => (expand t (group1 m), 1)
            | c :: s' =>
                let (out, n) := subn_from fuel' r t s' in
                (expand t (group1 m) ++ c :: out, S n)
            end
      | None =>
          match s with
          | [] => ([], 0)
          | c :: s' =>
              let (out, n) := subn_from fuel' r t s' in
              (c :: out, n)
          end
      end
  end.

Definition re_subn (r : regex) (t : template) (s : text) : text * nat :=
  subn_from (S (length s)) r t s.

(** [re.sub] is [re.subn] without the count. *)
Definition re_sub (r : regex) (t : template) (s : text) : text :=
  fst (re_subn r t s).

End Re.
Import Re.

(* ------------------------------------------------------------------ *)
(** * The script's constants *)

Module Patch.

Definition LF : string := String (ascii_of_nat 10) EmptyString.
Definition SQ : string := String (ascii_of_nat 39) EmptyString.

(** The lines of a triple-quoted literal, each ended by a newline. *)
Fixpoint unlines (ls : list string) : string :=
  match ls with
  | [] => EmptyString
  | l :: ls' => (l ++ LF ++ unlines ls')%string
  end.

Definition files : list string :=
  [ "api/tenants/index.ts";
    "api/units/index.ts";
    "api/leases/index.ts";
    "api/payments/index.ts";
    "api/dashboard/stats.ts" ]%string.

Definition db_connection_code : text :=
  str (unlines
    [ "  // Create database connection";
      "  const databaseUrl = process.env.DATABASE_URL;";
      "  if (!databaseUrl) {";
      "    return res.status(500).json({ error: " ++ SQ
        ++ "Database not configured" ++ SQ ++ " });";
      "  }";
      "";
      "  const sql = postgres(databaseUrl, { ";
      "    prepare: false,";
      "    max: 1,";
      "  });";
      "  const db = drizzle(sql);";
      "";
      "  try {" ]%string).

(** The set of the single and the double quote. *)
Definition quote (c : char) : bool := ((c =? 39) || (c =? 34))%N.

(** The group of the first pattern: the authorization guard
    [if \(!auth\) \{\s+return res\.status\(401\)\.json\(\{ error:
     qUnauthorizedq \}\);\s+\}], q one of the two quotes. *)
Definition guard_group : regex :=
  Cat (lits (str "if (!auth) {"))
 (Cat (Plus is_space)
 (Cat (lits (str "return res.status(401).json({ error: "))
 (Cat (Class quote)
 (Cat (lits (str "Unauthorized"))
 (Cat (Class quote)
 (Cat (lits (str " });"))
 (Cat (Plus is_space)
      (lits (str "}"))))))))).

(** The first pattern: the guard, then [\s+]. *)
Definition guard_re : regex := Cat (Group guard_group) (Plus is_space).

(** [r'\1\n\n' + db_connection_code]; the code holds no backslash, so the
    template takes it literally. *)
Definition setup_template : template :=
  TGroup1 :: TChr nl :: TChr nl :: tlits db_connection_code.

(** The second pattern: [(\n\})\s*$]. *)
Definition closer_re : regex :=
  Cat (Group (lits [nl; rbrace])) (Cat (Star is_space) Eos).

(** The inserted teardown, [  } finally { ... }], without the newline
    before it and the closer after it. *)
Definition finally_block : text :=
  str ("  } finally {" ++ LF ++ "    await sql.end();" ++ LF ++ "  }")%string.

(** [r'\n  } finally {\n    await sql.end();\n  }\n}']. *)
Definition teardown_text : text := nl :: finally_block ++ [nl; rbrace].

Definition teardown_template : template := tlits teardown_text.

(** Transform A: the setup block after the auth check. *)
Definition transform_a (content : text) : text :=
  re_sub guard_re setup_template content.

(** Transform B: the finally block before the closing brace. *)
Definition transform_b (content : text) : text :=
  re_sub closer_re teardown_template content.

(** What the loop body does to the content between read and write. *)
Definition transform (content : text) : text :=
  transform_b (transform_a content).

(** "Contains the authorization-guard pattern". *)
Definition has_guard (s : text) : bool := re_search guard_re s.

(** "Ends with a newline, a closing brace and optional white space". *)
Definition has_closer (s : text) : bool := re_search closer_re s.

End Patch.
Import Patch.

(* ------------------------------------------------------------------ *)
(** * The script: filesystem, exceptions and the main loop

    The loop over a tree in which different paths name different files,
    reading returns, and the standard output takes every line.  [Posix]
    below has the tree with links, carriage returns in the files, reads
    that block and a standard output that refuses. *)

Module Script.

(** The exceptions [open], [read] and [write] raise on a text file.  All
    of them derive from [Exception]. *)
Inductive exn_class : Type :=
| FileNotFoundError
| PermissionError
| IsADirectoryError
| OSError
| UnicodeDecodeError.

(** An exception object; [exn_str e] is [str(e)], what an f-string
    makes of [{e}]. *)
Record exn : Type := Exn { exn_cls : exn_class; exn_str : string }.

(** [isinstance(e, Exception)]. *)
Definition is_Exception (e : exn) : bool :=
  match exn_cls e with
  | FileNotFoundError | PermissionError | IsADirectoryError
  | OSError | UnicodeDecodeError => true
  end.

(** What the script can observe of one path: the outcome of opening it
    for reading and reading it whole (the decoded text, or the exception),
    and the exception opening it for writing raises, if any.  A path with
    nothing behind it reads as [FileNotFoundError]. *)
Record node : Type := Node { on_read : exn + text; on_write : option exn }.

Definition filesystem := string -> node.

Definition store (p : string) (c : text) (fs : filesystem) : filesystem :=
  fun q => if String.eqb q p then Node (inr c) None else fs q.

Inductive access : Type :=
| OpenRead (p : string)
| OpenWrite (p : string).

Definition path_of (a : access) : string :=
  match a with OpenRead p | OpenWrite p => p end.

(** The state a run threads: the files, what was printed (one entry per
    [print] call) and the [open] calls made so far. *)
Record world : Type :=
  World { fs : filesystem; stdout : list string; opened : list access }.

(** State and exceptions. *)
Definition M (A : Type) : Type := world -> (exn + A) * world.

Definition ret {A} (a : A) : M A := fun w => (inr a, w).

Definition bind {A B} (m : M A) (f : A -> M B) : M B :=
  fun w =>
    match m w with
    | (inr a, w') => f a w'
    | (inl e, w') => (inl e, w')
    end.

Notation "x <- m ;; f" := (bind m (fun x => f))
  (at level 61, m at next level, right associativity).
Notation "m ;;; f" := (bind m (fun _ => f))
  (at level 61, right associativity).

(** [try: body except Exception as e: handler]. *)
Definition try_except {A} (body : M A) (handler : exn -> M A) : M A :=
  fun w =>
    match body w with
    | (inl e, w') => if is_Exception e then handler e w' else (inl e, w')
    | ok => ok
    end.

(** [with open(filepath, 'r') as f: content = f.read()]. *)
Definition read_file (filepath : string) : M text :=
  fun w =>
    (on_read (fs w filepath),
     World (fs w) (stdout w) (opened w ++ [OpenRead filepath])).

(** [with open(filepath, 'w') as f: f.write(content)]. *)
Definition write_file (filepath : string) (content : text) : M unit :=
  fun w =>
    match on_write (fs w filepath) with
    | Some e =>
        (inl e, World (fs w) (stdout w) (opened w ++ [OpenWrite filepath]))
    | None =>
        (inr tt, World (store filepath content (fs w)) (stdout w)
                       (opened w ++ [OpenWrite filepath]))
    end.

Definition print (line : string) : M unit :=
  fun w => (inr tt, World (fs w) (stdout w ++ [line]) (opened w)).

(** [for x in l: body]. *)
Fixpoint for_each (l : list string) (body : string -> M unit) : M unit :=
  match l with
  | [] => ret tt
  | x :: l' => body x ;;; for_each l' body
  end.

(** The body of the [try]. *)
Definition patch_body (filepath : string) : M unit :=
  content <- read_file filepath ;;
  let content := re_sub guard_re setup_template content in
  let content := re_sub closer_re teardown_template content in
  write_file filepath content ;;;
  print ("Fixed " ++ filepath)%string.

(** One turn of the loop. *)
Definition patch_file (filepath : string) : M unit :=
  try_except (patch_body filepath)
    (fun e =>
       print ("Error processing " ++ filepath ++ ": " ++ exn_str e)%string).

Definition main : M unit := for_each files patch_file.

(** A run starts with nothing printed and nothing opened. *)
Definition run (fs0 : filesystem) : (exn + unit) * world :=
  main (World fs0 [] []).

(** The interpreter exits with 0 unless an exception reaches the top. *)
Definition exit_status (r : exn + unit) : nat :=
  match r with inr _ => 0 | inl _ => 1 end.

(** The line a turn of the loop prints for a path, from the outcome of
    the [try] body. *)
Definition report (filepath : string) (r : exn + unit) : string :=
  match r with
  | inr _ => ("Fixed " ++ filepath)%string
  | inl e => ("Error processing " ++ filepath ++ ": " ++ exn_str e)%string
  end.

End Script.
Import Script.

(* ------------------------------------------------------------------ *)
(** * Sample inputs *)

(** The handler of the end-to-end example. *)
Definition example_handler : text :=
  str (unlines
    [ "export default async function handler(req, res) {";
      "  const auth = await verify(req);";
      "  if (!auth) {";
      "    return res.status(401).json({ error: " ++ SQ ++ "Unauthorized"
        ++ SQ ++ " });";
      "  }";
      "  const data = await fetchData();";
      "  return res.json(data);";
      "}" ]%string).

(** A non-empty run of white space, what [\s+] takes. *)
Definition spaces (w : text) : bool :=
  match w with
  | [] => false
  | _ :: _ => blank w
  end.

(** The texts the group of the first pattern matches: the guard with white
    space [w1] and [w2] and quote characters [q1] and [q2]. *)
Definition guard_with (w1 : text) (q1 q2 : char) (w2 : text) : text :=
  str "if (!auth) {" ++ w1 ++
  str "return res.status(401).json({ error: " ++ [q1] ++
  str "Unauthorized" ++ [q2] ++ str " });" ++ w2 ++ [rbrace].

(** [subseqb a b]: the characters of [a] occur in [b] in the same order. *)
Fixpoint subseqb (a b : text) : bool :=
  match b with
  | [] => match a with [] => true | _ :: _ => false end
  | y :: b' =>
      match a with
      | [] => true
      | x :: a' => if (x =? y)%N then subseqb a' b' else subseqb a b'
      end
  end.

(** The example handler indented with tabs. *)
Definition tab_handler : text :=
  let TAB := String (ascii_of_nat 9) EmptyString in
  str (unlines
    [ "export default async function handler(req, res) {";
      TAB ++ "if (!auth) {";
      TAB ++ TAB ++ "return res.status(401).json({ error: " ++ SQ
        ++ "Unauthorized" ++ SQ ++ " });";
      TAB ++ "}";
      TAB ++ "return res.json(1);" ]%string) ++ [rbrace].

(** The setup block from its first non-blank character on, that is, up to
    the indentation of its first line. *)
Definition setup_body : text := lstrip db_connection_code.

(** The parts of [example_handler]: the text in front of the guard and the
    text between the guard and the closing brace. *)
Definition example_pre : text :=
  str (unlines
    [ "export default async function handler(req, res) {";
      "  const auth = await verify(req);" ]%string) ++ str "  ".

Definition example_mid : text :=
  str (unlines
    [ "const data = await fetchData();";
      "  return res.json(data);" ]%string).

(** A file without guard and without closer. *)
Definition plain_module : text := str ("export const limit = 10;" ++ LF)%string.

(** A file without guard that ends with a closer. *)
Definition guardless_pre : text :=
  str ("export default function ping(req, res) {" ++ LF
       ++ "  return res.json(1);")%string.




(** The node of a path after a turn of the loop on it. *)
Definition node_after (n : node) : node :=
  match on_read n with
  | inl _ => n
  | inr c =>
      match on_write n with
      | Some _ => n
      | None => Node (inr (transform c)) None
      end
  end.

(** The [open] calls of a turn of the loop on a path. *)
Definition opens (p : string) (n : node) : list access :=
  match on_read n with
  | inl _ => [OpenRead p]
  | inr _ => [OpenRead p; OpenWrite p]
  end.

(** [re.search(r, s).start()]: the leftmost position at which the pattern
    matches, counted from [i]. *)
Fixpoint search_start_from (i : nat) (r : regex) (s : text) : option nat :=
  if matches r s then Some i
  else match s with
       | [] => None
       | _ :: s' => search_start_from (S i) r s'
       end.

Definition search_start (r : regex) (s : text) : option nat :=
  search_start_from 0 r s.

(** The white space a text starts with; [lstrip] is what follows it. *)
Fixpoint lead_blank (s : text) : text :=
  match s with
  | c :: s' => if is_space c then c :: lead_blank s' else []
  | [] => []
  end.

(** The last character of a text that is not white space. *)
Definition last_nonblank (s : text) : option char :=
  find (fun c => negb (is_space c)) (rev s).

(** The guard of [example_handler]. *)
Definition example_guard : text :=
  guard_with (str (LF ++ "    ")%string) 39%N 39%N (str (LF ++ "  ")%string).



(* ------------------------------------------------------------------ *)
(** * The script as a process: links, newlines, blocking reads, stdout *)

Module Posix.

Definition cr : char := 13%N.

(** Reading in text mode with [newline=None]: a carriage return followed by
    a line feed, and a carriage return alone, come out as one line feed.
    Writing in text mode on a POSIX system puts the line feed out as it
    is. *)
Fixpoint universal_newlines (raw : text) : text :=
  match raw with
  | [] => []
  | c :: rest =>
      if (c =? cr)%N then
        nl :: match rest with
              | d :: rest' =>
                  if (d =? nl)%N then universal_newlines rest'
                  else universal_newlines rest
              | [] => []
              end
      else c :: universal_newlines rest
  end.

(** How a file takes [open(p, 'w')] and the write that follows. *)
Inductive write_mode : Type :=
| Writable                        (* open, write and close succeed *)
| OpenRaises (e : exn)            (* [open] raises, the file is untouched *)
| FlushRaises (e : exn) (k : nat).
    (* [open] truncates; writing or closing raises once [k] characters
       have reached the file *)

(** What stands behind a path. *)
Inductive file : Type :=
| Fifo                            (* a pipe nobody writes to: [open] blocks *)
| Unreadable (e : exn)
    (* [open(p, 'r')] or [read] raises: nothing there, a directory, no
       permission, bytes the codec refuses *)
| Regular (raw : text) (wm : write_mode).
    (* the characters of the file as the codec gives them, before the
       translation of newlines *)

(** Files have an identity of their own; several paths (another spelling,
    a symbolic or a hard link) may lead to one file. *)
Definition ino := nat.

(** The standard output: what the [n]-th [print] call raises, if anything,
    and whether the flush at exit fails. *)
Record console : Type :=
  Console { refuses : nat -> option exn; flush_fails : bool }.

Record state : Type :=
  State { files_at : ino -> file;
          printed : list string;
          calls : list access;
          print_calls : nat }.

Inductive outcome (A : Type) : Type :=
| Returned (a : A)
| Raised (e : exn)
| Blocked.

Arguments Returned {A} a.
Arguments Raised {A} e.
Arguments Blocked {A}.

Definition put (i : ino) (f : file) (fa : ino -> file) : ino -> file :=
  fun j => if Nat.eqb j i then f else fa j.

Section Process.
Variable resolve : string -> ino.
Variable con : console.

Definition P (A : Type) : Type := state -> outcome A * state.

Definition unit_ {A} (a : A) : P A := fun st => (Returned a, st).

Definition then_ {A B} (m : P A) (f : A -> P B) : P B :=
  fun st =>
    match m st with
    | (Returned a, st') => f a st'
    | (Raised e, st') => (Raised e, st')
    | (Blocked, st') => (Blocked, st')
    end.

(** [try: body except Exception as e: handler]. *)
Definition attempt {A} (body : P A) (handler : exn -> P A) : P A :=
  fun st =>
    match body st with
    | (Raised e, st') => if is_Exception e then handler e st' else (Raised e, st')
    | other => other
    end.

(** [with open(filepath, 'r') as f: content = f.read()]. *)
Definition read_text (filepath : string) : P text :=
  fun st =>
    let st' := State (files_at st) (printed st)
                     (calls st ++ [OpenRead filepath]) (print_calls st) in
    match files_at st (resolve filepath) with
    | Fifo => (Blocked, st')
    | Unreadable e => (Raised e, st')
    | Regular raw _ => (Returned (universal_newlines raw), st')
    end.

(** [with open(filepath, 'w') as f: f.write(content)]. *)
Definition write_text (filepath : string) (content : text) : P unit :=
  fun st =>
    let log := calls st ++ [OpenWrite filepath] in
    let keep := State (files_at st) (printed st) log (print_calls st) in
    let leave f := State (put (resolve filepath) f (files_at st))
                         (printed st) log (print_calls st) in
    match files_at st (resolve filepath) with
    | Fifo => (Blocked, keep)
    | Unreadable e => (Raised e, keep)
    | Regular _ Writable => (Returned tt, leave (Regular content Writable))
    | Regular _ (OpenRaises e) => (Raised e, keep)
    | Regular _ (FlushRaises e k) =>
        (Raised e, leave (Regular (firstn k content) (FlushRaises e k)))
    end.

Definition print_line (line : string) : P unit :=
  fun st =>
    match refuses con (print_calls st) with
    | Some e =>
        (Raised e, State (files_at st) (printed st) (calls st)
                         (S (print_calls st)))
    | None =>
        (Returned tt, State (files_at st) (printed st ++ [line]) (calls st)
                            (S (print_calls st)))
    end.

Fixpoint each (l : list string) (body : string -> P unit) : P unit :=
  match l with
  | [] => unit_ tt
  | x :: l' => then_ (body x) (fun _ => each l' body)
  end.

(** The body of the [try]. *)
Definition turn_body (filepath : string) : P unit :=
  then_ (read_text filepath) (fun content =>
  let content := re_sub guard_re setup_template content in
  let content := re_sub closer_re teardown_template content in
  then_ (write_text filepath content) (fun _ =>
  print_line ("Fixed " ++ filepath)%string)).

(** One turn of the loop. *)
Definition turn (filepath : string) : P unit :=
  attempt (turn_body filepath)
    (fun e =>
       print_line ("Error processing " ++ filepath ++ ": " ++ exn_str e)%string).

Definition script : P unit := each files turn.

(** The process from its start to the end of the script. *)
Definition process (fa : ino -> file) : outcome unit * state :=
  script (State fa [] [] 0).

(** The exit status: none while the process hangs, 120 when the flush of
    the standard output at exit fails, 1 when an exception reached the
    top, 0 otherwise. *)
Definition exit_code (o : outcome unit) : option nat :=
  match o with
  | Blocked => None
  | Raised _ => Some (if flush_fails con then 120 else 1)
  | Returned _ => Some (if flush_fails con then 120 else 0)
  end.

End Process.

End Posix.
Import Posix.

(** A standard output that takes every line and flushes. *)
Definition tty : console := Console (fun _ => None) false.

(** A standard output on a full device, unbuffered: every [print] raises. *)
Definition full_device : console :=
  Console (fun _ => Some (Exn OSError "[Errno 28] No space left on device"))
          false.

(** A standard output on a full device, buffered: the lines go to the
    buffer and the flush at exit fails. *)
Definition full_device_buffered : console := Console (fun _ => None) true.

(** Path resolution in a tree where the current directory holds the listed
    files: the listed paths lead to files 1 to 5, and [./] in front of a
    path changes nothing. *)
Definition tree_resolve (p : string) : ino :=
  let fix index (l : list string) (i : nat) : ino :=
      match l with
      | [] => 0
      | x :: l' =>
          if String.eqb p x || String.eqb p ("./" ++ x) then i
          else index l' (S i)
      end in
  index files 1.

(** Nothing but the example handler, at [api/leases/index.ts]. *)
Definition leases_disk : ino -> file :=
  fun i => if Nat.eqb i 3 then Regular example_handler Writable
           else Unreadable (Exn FileNotFoundError
                                "[Errno 2] No such file or directory").

(** The same tree with a pipe at [api/units/index.ts]. *)
Definition pipe_disk : ino -> file :=
  fun i => if Nat.eqb i 2 then Fifo else leases_disk i.

(** [plain_module] with the line ends of another system, at
    [api/units/index.ts]. *)
Definition crlf_module : text :=
  str "export const limit = 10;" ++ [cr; nl].

Definition crlf_disk : ino -> file :=
  fun i => if Nat.eqb i 2 then Regular crlf_module Writable
           else leases_disk i.

(** A handler that holds the setup block and no guard. *)
Definition setup_without_guard : text :=
  str ("export default async function handler(req, res) {" ++ LF)%string
  ++ db_connection_code
  ++ str ("  return res.json(1);" ++ LF ++ "}")%string.

(** A file of a plain tree: it is no pipe, its write does not fail half
    way, and it holds no carriage return. *)
Definition plain (f : file) : bool :=
  match f with
  | Unreadable _ => true
  | Regular raw Writable | Regular raw (OpenRaises _) =>
      negb (existsb (N.eqb cr) raw)
  | Regular _ (FlushRaises _ _) | Fifo => false
  end.

(** A plain file as the node of [Script]. *)
Definition node_view (f : file) : node :=
  match f with
  | Regular raw Writable => Node (inr raw) None
  | Regular raw (OpenRaises e) | Regular raw (FlushRaises e _) =>
      Node (inr raw) (Some e)
  | Unreadable e => Node (inl e) None
  | Fifo => Node (inl (Exn OSError EmptyString)) None
  end.

Arguments is_space c : simpl never.
Arguments quote c : simpl never.

(* ------------------------------------------------------------------ *)
(** * The substitution engine *)

Section SubstitutionFacts.
Variable r : regex.
Variable t : template.

(** Any fuel above the length of the text gives the same result. *)
Lemma subn_from_fuel (f1 : nat) :
  forall f2 s, length s < f1 -> length s < f2 ->
               subn_from f1 r t s = subn_from f2 r t s.
Proof.
  induction f1 as [|f1 IH]; intros f2 s H1 H2; [lia|].
  destruct f2 as [|f2]; [lia|].
  simpl. destruct (re_match r s) as [m|].
  - destruct (Nat.ltb_spec (length (after m)) (length s)) as [Hlt|Hge].
    + rewrite (IH f2 (after m)) by lia. reflexivity.
    + destruct s as [|c s']; [reflexivity|].
      simpl in H1, H2. rewrite (IH f2 s') by lia. reflexivity.
  - destruct s as [|c s']; [reflexivity|].
    simpl in H1, H2. rewrite (IH f2 s') by lia. reflexivity.
Qed.

Lemma subn_from_S (f : nat) (s : text) :
  subn_from (S f) r t s =
    match re_match r s with
    | Some m =>
        if length (after m) <? length s then
          let (out, n) := subn_from f r t (after m) in
          (expand t (group1 m) ++ out, S n)
        else
          match s with
          | [] => (expand t (group1 m), 1)
          | c :: s' =>
              let (out, n) := subn_from f r t s' in
              (expand t (group1 m) ++ c :: out, S n)
          end
    | None =>
        match s with
        | [] => ([], 0)
        | c :: s' => let (out, n) := subn_from f r t s' in (c :: out, n)
        end
    end.
Proof. reflexivity. Qed.

Lemma re_subn_nil_nomatch :
  re_match r [] = None -> re_subn r t [] = ([], 0).
Proof. intros H. unfold re_subn. rewrite subn_from_S, H. reflexivity. Qed.

(** No match at the head: the character is copied. *)
Lemma re_subn_copy (c : char) (s : text) :
  re_match r (c :: s) = None ->
  re_subn r t (c :: s) = (c :: fst (re_subn r t s), snd (re_subn r t s)).
Proof.
  intros H. unfold re_subn. rewrite subn_from_S, H.
  change (length (c :: s)) with (S (length s)).
  destruct (subn_from (S (length s)) r t s); reflexivity.
Qed.

(** A match that consumes something: it is replaced and the scan goes on
    behind it. *)
Lemma re_subn_replace (s : text) (m : rmatch_obj) :
  re_match r s = Some m -> length (after m) < length s ->
  re_subn r t s =
    (expand t (group1 m) ++ fst (re_subn r t (after m)),
     S (snd (re_subn r t (after m)))).
Proof.
  intros H Hlt. unfold re_subn. rewrite subn_from_S, H.
  apply Nat.ltb_lt in Hlt as Hb. rewrite Hb.
  rewrite (@subn_from_fuel (length s) (S (length (after m)))) by lia.
  destruct (subn_from (S (length (after m))) r t (after m)); reflexivity.
Qed.

(** A pattern that matches nowhere leaves the text alone. *)
Lemma re_subn_no_match (s : text) :
  re_search r s = false -> re_subn r t s = (s, 0).
Proof.
  induction s as [|c s IH]; simpl; intros H;
    apply orb_false_iff in H as [Hm Hs]; unfold matches in Hm.
  - apply re_subn_nil_nomatch.
    destruct (re_match r []); [discriminate | reflexivity].
  - rewrite re_subn_copy.
    + rewrite (IH Hs). reflexivity.
    + destruct (re_match r (c :: s)); [discriminate | reflexivity].
Qed.

(** The text before the first matching position is copied. *)
Lemma re_subn_skip (pre rest : text) :
  (forall a b, pre = a ++ b -> b <> [] -> matches r (b ++ rest) = false) ->
  re_subn r t (pre ++ rest) =
    (pre ++ fst (re_subn r t rest), snd (re_subn r t rest)).
Proof.
  induction pre as [|c pre IH]; intros H.
  - simpl. destruct (re_subn r t rest); reflexivity.
  - simpl. rewrite re_subn_copy.
    + rewrite IH; [reflexivity|].
      intros a b Hab Hb. apply (H (c :: a) b); [|exact Hb].
      simpl. now rewrite Hab.
    + specialize (H [] (c :: pre) eq_refl ltac:(discriminate)).
      unfold matches in H. simpl in H.
      destruct (re_match r (c :: pre ++ rest)); [discriminate|reflexivity].
Qed.

Lemma match_positions_from_ge (i : nat) (s : text) :
  forall x, In x (match_positions_from i r s) -> i <= x.
Proof.
  revert i. induction s as [|c s IH]; intros i x; simpl.
  - rewrite app_nil_r. destruct (matches r []); simpl; [|tauto].
    intros [<-|[]]. lia.
  - rewrite in_app_iff. intros [H|H].
    + destruct (matches r (c :: s)); simpl in H; [|tauto].
      destruct H as [<-|[]]. lia.
    + apply IH in H. lia.
Qed.

Lemma match_positions_from_nil (i : nat) (s : text) :
  match_positions_from i r s = [] -> re_search r s = false.
Proof.
  revert i. induction s as [|c s IH]; intros i; simpl.
  - destruct (matches r []); [discriminate | reflexivity].
  - destruct (matches r (c :: s)); [discriminate|].
    simpl. apply IH.
Qed.

(** The positions behind a prefix are positions of the whole. *)
Lemma match_positions_from_app (pre rest : text) :
  forall i x, In x (match_positions_from (i + length pre) r rest) ->
              In x (match_positions_from i r (pre ++ rest)).
Proof.
  induction pre as [|c pre IH]; intros i x; simpl.
  - now rewrite Nat.add_0_r.
  - intros H. apply in_or_app. right. apply IH.
    now replace (S i + length pre) with (i + S (length pre)) by lia.
Qed.

(** When the pattern matches at one position only, nothing before it and
    nothing behind its first character matches. *)
Lemma single_position_before (pre rest : text) :
  forall i,
    match_positions_from i r (pre ++ rest) = [i + length pre] ->
    forall a b, pre = a ++ b -> b <> [] -> matches r (b ++ rest) = false.
Proof.
  induction pre as [|c pre IH]; intros i H a b Hab Hb.
  - destruct a; destruct b; try discriminate. congruence.
  - simpl in H.
    destruct (matches r (c :: pre ++ rest)) eqn:Hm.
    + simpl in H. injection H as H _. simpl in H. lia.
    + simpl in H.
      replace (i + S (length pre)) with (S i + length pre) in H by lia.
      destruct a as [|c' a].
      * simpl in Hab. subst b. exact Hm.
      * simpl in Hab. injection Hab as _ Hab.
        exact (IH (S i) H a b Hab Hb).
Qed.

Lemma single_position_behind (pre x rest : text) :
  x <> [] ->
  match_positions r (pre ++ x ++ rest) = [length pre] ->
  re_search r rest = false.
Proof.
  intros Hx H.
  apply (match_positions_from_nil (length pre + length x)).
  destruct (match_positions_from (length pre + length x) r rest)
    as [|p l] eqn:E; [reflexivity|exfalso].
  assert (Hin : In p (match_positions_from (length pre + length x) r rest))
    by (rewrite E; now left).
  pose proof (match_positions_from_ge _ _ _ Hin) as Hge.
  replace (length pre + length x) with (0 + length (pre ++ x)) in Hin
    by (rewrite length_app; lia).
  apply match_positions_from_app in Hin.
  rewrite <- app_assoc in Hin. unfold match_positions in H.
  rewrite H in Hin. destruct Hin as [Hp|[]].
  destruct x; [congruence|]. simpl in Hge. lia.
Qed.

Lemma expand_tlits (l : text) (g : option text) : expand (tlits l) g = l.
Proof. induction l as [|c l IH]; simpl; [reflexivity | now rewrite IH]. Qed.

End SubstitutionFacts.

(* ------------------------------------------------------------------ *)
(** * The matcher on the script's patterns *)

Section MatcherFacts.
Variable A : Type.

(** A literal pattern reads itself. *)
Lemma rmatch_lits (l t : text) (g : option text)
      (k : text -> option text -> option A) :
  rmatch (lits l) (l ++ t) g k = k t g.
Proof.
  induction l as [|c l IH]; simpl; [reflexivity|].
  now rewrite N.eqb_refl.
Qed.

Lemma rmatch_class (p : char -> bool) (c : char) (t : text)
      (g : option text) (k : text -> option text -> option A) :
  p c = true -> rmatch (Class p) (c :: t) g k = k t g.
Proof. intros H. simpl. now rewrite H. Qed.

(** When the continuation accepts what follows the longest run, the
    greedy loop stops there. *)
Lemma greedy_run (w t : text) (k : text -> option A) (x : A) :
  blank w = true -> starts_blank t = false -> k t = Some x ->
  greedy is_space k (w ++ t) = Some x.
Proof.
  intros Hw Ht Hk. induction w as [|c w IH]; simpl.
  - destruct t as [|c t]; [exact Hk|].
    simpl in Ht |- *. now rewrite Ht.
  - simpl in Hw. apply andb_true_iff in Hw as [Hc Hw].
    now rewrite Hc, (IH Hw).
Qed.

Lemma rmatch_plus_run (w t : text) (g : option text)
      (k : text -> option text -> option A) (x : A) :
  spaces w = true -> starts_blank t = false -> k t g = Some x ->
  rmatch (Plus is_space) (w ++ t) g k = Some x.
Proof.
  intros Hw Ht Hk. destruct w as [|c w]; [discriminate|].
  simpl in Hw. apply andb_true_iff in Hw as [Hc Hw].
  simpl. rewrite Hc. now apply greedy_run.
Qed.

(** [\s*$]: the white space must run to the end of the text, and the
    match then ends there. *)
Lemma greedy_eos (s : text) (g : option text)
      (k : text -> option text -> option A) (x : A) :
  k [] g = Some x ->
  greedy is_space (fun u => rmatch Eos u g k) s =
    if blank s then Some x else None.
Proof.
  intros Hk. induction s as [|c s IH]; [exact Hk|].
  cbn [greedy blank forallb]. fold (blank s).
  destruct (is_space c) eqn:Hc; cbn [andb].
  - rewrite IH. destruct (blank s) eqn:Hs; [reflexivity|].
    destruct s; [discriminate | reflexivity].
  - destruct s; [|reflexivity]. cbn [rmatch].
    destruct (N.eqb_spec c nl) as [->|]; [discriminate | reflexivity].
Qed.

Lemma rmatch_cat (r1 r2 : regex) (s : text) (g : option text)
      (k : text -> option text -> option A) :
  rmatch (Cat r1 r2) s g k = rmatch r1 s g (fun u g' => rmatch r2 u g' k).
Proof. reflexivity. Qed.

Lemma rmatch_group (r1 : regex) (s : text) (g : option text)
      (k : text -> option text -> option A) :
  rmatch (Group r1) s g k =
    rmatch r1 s g (fun u _ => k u (Some (firstn (length s - length u) s))).
Proof. reflexivity. Qed.

End MatcherFacts.

Lemma firstn_app_minus (x t : text) :
  firstn (length (x ++ t) - length t) (x ++ t) = x.
Proof.
  rewrite length_app. replace (length x + length t - length t)
    with (length x + 0) by lia.
  rewrite firstn_app_2. simpl. apply app_nil_r.
Qed.

(** The group of the first pattern reads a guard and stops behind it. *)
Lemma guard_group_match (A : Type) (w1 : text) (q1 q2 : char) (w2 t : text)
      (g : option text) (k : text -> option text -> option A) (x : A) :
  spaces w1 = true -> quote q1 = true -> quote q2 = true ->
  spaces w2 = true -> k t g = Some x ->
  rmatch guard_group (guard_with w1 q1 q2 w2 ++ t) g k = Some x.
Proof.
  intros H1 Hq1 Hq2 H2 Hk.
  unfold guard_group, guard_with. repeat rewrite <- app_assoc.
  rewrite rmatch_cat, rmatch_lits, rmatch_cat.
  apply rmatch_plus_run; [exact H1 | reflexivity|].
  rewrite rmatch_cat, rmatch_lits, rmatch_cat. cbn [app].
  rewrite rmatch_class by exact Hq1.
  rewrite rmatch_cat, rmatch_lits, rmatch_cat. cbn [app].
  rewrite rmatch_class by exact Hq2.
  rewrite rmatch_cat, rmatch_lits, rmatch_cat.
  apply rmatch_plus_run; [exact H2 | reflexivity|].
  change (rbrace :: t) with (str "}" ++ t). rewrite rmatch_lits.
  exact Hk.
Qed.

(** The first pattern at a guard: group 1 is the guard, all the white space
    behind it is consumed. *)
Lemma guard_re_match (w1 : text) (q1 q2 : char) (w2 w rest : text) :
  spaces w1 = true -> quote q1 = true -> quote q2 = true ->
  spaces w2 = true -> spaces w = true -> starts_blank rest = false ->
  re_match guard_re (guard_with w1 q1 q2 w2 ++ w ++ rest) =
    Some (MatchObj (Some (guard_with w1 q1 q2 w2)) rest).
Proof.
  intros H1 Hq1 Hq2 H2 Hw Hr. unfold re_match, guard_re.
  rewrite rmatch_cat, rmatch_group. apply guard_group_match; try assumption.
  rewrite firstn_app_minus.
  now apply rmatch_plus_run.
Qed.

(** The second pattern matches exactly at a newline and a closing brace
    followed by white space up to the end, and the match takes all of it. *)
Lemma closer_re_match (s : text) :
  re_match closer_re s =
    match s with
    | a :: b :: u =>
        if ((a =? nl) && (b =? rbrace))%N && blank u
        then Some (MatchObj (Some [nl; rbrace]) [])
        else None
    | _ => None
    end.
Proof.
  unfold re_match, closer_re. cbn [rmatch lits].
  destruct s as [|a [|b u]]; try reflexivity.
  - destruct (a =? nl)%N; reflexivity.
  - destruct (N.eqb_spec a nl) as [->|]; [|reflexivity].
    destruct (N.eqb_spec b rbrace) as [->|]; [|reflexivity].
    change (nl :: rbrace :: u) with ([nl; rbrace] ++ u).
    rewrite firstn_app_minus.
    exact (@greedy_eos rmatch_obj u (Some [nl; rbrace])
                       (fun t g => Some (MatchObj g t)) _ eq_refl).
Qed.

(* ------------------------------------------------------------------ *)
(** * Transform B *)

Lemma blank_app (a b : text) : blank (a ++ b) = blank a && blank b.
Proof. apply forallb_app. Qed.

Lemma closer_matches (s : text) :
  matches closer_re s =
    match s with
    | a :: b :: u => ((a =? nl) && (b =? rbrace))%N && blank u
    | _ => false
    end.
Proof.
  unfold matches. rewrite closer_re_match.
  destruct s as [|a [|b u]]; try reflexivity.
  now destruct (((a =? nl) && (b =? rbrace))%N && blank u).
Qed.

(** Nothing in front of the last closer matches the second pattern. *)
Lemma closer_not_before (b w : text) :
  b <> [] -> matches closer_re (b ++ nl :: rbrace :: w) = false.
Proof.
  intros Hb. rewrite closer_matches.
  destruct b as [|x [|y b]]; [congruence| |].
  - cbn [app]. change (nl =? rbrace)%N with false.
    now rewrite andb_false_r.
  - cbn [app]. rewrite blank_app. cbn [blank forallb].
    change (is_space rbrace) with false.
    now rewrite !andb_false_r.
Qed.

Lemma closer_subn_nil : re_subn closer_re teardown_template [] = ([], 0).
Proof. reflexivity. Qed.

(** Transform B on a text that ends with the closer. *)
Lemma closer_subn (pre w : text) :
  blank w = true ->
  re_subn closer_re teardown_template (pre ++ nl :: rbrace :: w) =
    (pre ++ teardown_text, 1).
Proof.
  intros Hw. rewrite re_subn_skip.
  - assert (Hm : re_match closer_re (nl :: rbrace :: w) =
                 Some (MatchObj (Some [nl; rbrace]) [])).
    { rewrite closer_re_match, Hw. reflexivity. }
    rewrite (@re_subn_replace _ teardown_template _ _ Hm) by (simpl; lia).
    cbn [after group1]. rewrite closer_subn_nil.
    unfold teardown_template. rewrite expand_tlits.
    cbn [fst snd]. now rewrite app_nil_r.
  - intros a b _ Hb. now apply closer_not_before.
Qed.

Lemma transform_b_closer (pre w : text) :
  blank w = true ->
  transform_b (pre ++ nl :: rbrace :: w) = pre ++ teardown_text.
Proof.
  intros Hw. unfold transform_b, re_sub. now rewrite closer_subn.
Qed.

(** The second pattern is found exactly in the texts that end with a
    newline, a closing brace and white space. *)
Lemma has_closer_spec (s : text) :
  has_closer s = true <->
  exists pre w, s = pre ++ nl :: rbrace :: w /\ blank w = true.
Proof.
  unfold has_closer. split.
  - induction s as [|c s IH]; simpl; [discriminate|].
    intros H. apply orb_true_iff in H as [H|H].
    + rewrite closer_matches in H.
      destruct s as [|b u]; [discriminate|].
      apply andb_true_iff in H as [H Hu].
      apply andb_true_iff in H as [Ha Hb].
      apply N.eqb_eq in Ha, Hb. subst.
      now exists [], u.
    + destruct (IH H) as (pre & w & -> & Hw).
      now exists (c :: pre), w.
  - intros (pre & w & -> & Hw).
    induction pre as [|c pre IH]; simpl.
    + rewrite closer_matches, Hw. reflexivity.
    + rewrite IH. apply orb_true_r.
Qed.

(** Transform B replaces at most once. *)
Lemma closer_subn_count (s : text) :
  snd (re_subn closer_re teardown_template s) <= 1.
Proof.
  induction s as [|c s IH]; [simpl; lia|].
  destruct (re_match closer_re (c :: s)) as [m|] eqn:Hm.
  - pose proof Hm as Hm'. rewrite closer_re_match in Hm'.
    destruct s as [|b u]; [discriminate|].
    destruct (((c =? nl) && (b =? rbrace))%N && blank u); [|discriminate].
    injection Hm' as <-.
    rewrite (@re_subn_replace _ teardown_template _ _ Hm) by (simpl; lia).
    cbn [after snd]. rewrite closer_subn_nil. simpl. lia.
  - rewrite re_subn_copy by exact Hm. exact IH.
Qed.

(* ------------------------------------------------------------------ *)
(** * Transform A *)

Lemma last_app_r (a b : text) (d : char) :
  b <> [] -> last (a ++ b) d = last b d.
Proof.
  intros Hb. induction a as [|x a IH]; [reflexivity|].
  cbn [app]. rewrite <- IH.
  destruct (a ++ b) eqn:E; [|reflexivity].
  apply app_eq_nil in E as [_ E]. congruence.
Qed.

Lemma guard_with_length (w1 : text) (q1 q2 : char) (w2 : text) :
  0 < length (guard_with w1 q1 q2 w2).
Proof. unfold guard_with. cbn. lia. Qed.

(** Transform A on a text whose only guard stands behind [pre]: the guard
    is kept, the white space behind it gives way to two newlines and the
    setup block. *)
Lemma transform_a_guard (pre w1 : text) (q1 q2 : char) (w2 w rest : text) :
  spaces w1 = true -> quote q1 = true -> quote q2 = true ->
  spaces w2 = true -> spaces w = true -> starts_blank rest = false ->
  match_positions guard_re (pre ++ guard_with w1 q1 q2 w2 ++ w ++ rest)
    = [length pre] ->
  transform_a (pre ++ guard_with w1 q1 q2 w2 ++ w ++ rest) =
    pre ++ guard_with w1 q1 q2 w2 ++ [nl; nl] ++ db_connection_code ++ rest.
Proof.
  intros H1 Hq1 Hq2 H2 Hw Hr Hpos.
  pose proof (guard_re_match w1 q1 q2 w2 w rest H1 Hq1 Hq2 H2 Hw Hr) as Hm.
  unfold transform_a, re_sub. rewrite re_subn_skip.
  - rewrite (@re_subn_replace _ setup_template _ _ Hm).
    + cbn [after group1 fst].
      rewrite re_subn_no_match.
      * cbn [fst setup_template expand]. rewrite expand_tlits.
        now rewrite <- app_assoc.
      * apply (@single_position_behind guard_re pre
                 (guard_with w1 q1 q2 w2 ++ w) rest).
        -- pose proof (guard_with_length w1 q1 q2 w2).
           destruct (guard_with w1 q1 q2 w2); [simpl in *; lia|discriminate].
        -- now rewrite <- app_assoc.
    + cbn [after]. rewrite !length_app.
      pose proof (guard_with_length w1 q1 q2 w2). lia.
  - apply (@single_position_before guard_re pre _ 0). exact Hpos.
Qed.

Lemma db_connection_code_last :
  db_connection_code = removelast db_connection_code ++ [nl].
Proof. reflexivity. Qed.

Lemma teardown_text_eq :
  teardown_text =
    str (LF ++ "  } finally {" ++ LF ++ "    await sql.end();" ++ LF
         ++ "  }" ++ LF ++ "}")%string.
Proof. reflexivity. Qed.

Lemma transform_a_no_match (s : text) :
  re_search guard_re s = false -> transform_a s = s.
Proof.
  intros H. unfold transform_a, re_sub.
  now rewrite (re_subn_no_match guard_re setup_template s H).
Qed.

(** C8. Transform A is the identity on every text in which the guard
    pattern is not found: nothing is inserted and the content is returned
    unmodified. *)
Theorem transform_a_without_guard (s : text) :
  has_guard s = false -> transform_a s = s.
Proof. exact (transform_a_no_match s). Qed.

Lemma transform_a_without_guard_witness :
  has_guard plain_module = false /\ transform_a plain_module = plain_module.
Proof.
  split; [reflexivity | apply (transform_a_without_guard plain_module)].
  reflexivity.
Defined.

(** C10. Transform B replaces at most once on any text; on a text that ends
    with a newline, a closing brace and optional white space it replaces
    exactly once, the output ends with the fixed suffix
    [\n  } finally {\n    await sql.end();\n  }\n}] and the white space
    behind the brace is gone. *)
Theorem closer_replaced_once (pre w : text) :
  blank w = true ->
  (forall s, snd (re_subn closer_re teardown_template s) <= 1) /\
  snd (re_subn closer_re teardown_template (pre ++ nl :: rbrace :: w)) = 1 /\
  transform_b (pre ++ nl :: rbrace :: w) =
    pre ++ str (LF ++ "  } finally {" ++ LF ++ "    await sql.end();" ++ LF
                ++ "  }" ++ LF ++ "}")%string.
Proof.
  intros Hw. split; [exact closer_subn_count|].
  rewrite <- teardown_text_eq. unfold transform_b, re_sub.
  now rewrite (closer_subn pre w Hw).
Qed.

Lemma closer_replaced_once_witness :
  blank (str (LF ++ "  " ++ LF)%string) = true /\
  transform_b (guardless_pre ++ nl :: rbrace :: str (LF ++ "  " ++ LF)%string)
  = guardless_pre
      ++ str (LF ++ "  } finally {" ++ LF ++ "    await sql.end();" ++ LF
              ++ "  }" ++ LF ++ "}")%string.
Proof.
  split; [reflexivity|].
  apply (closer_replaced_once guardless_pre (str (LF ++ "  " ++ LF)%string)).
  reflexivity.
Defined.

(** C1, as the code has it.  Take a text made of [pre], a guard, the white
    space [w] behind it, the text [m] up to the last closing brace (which
    a newline precedes) and the white space [w'] behind that brace, in
    which the guard pattern matches at the guard only.  The output is
    [pre], the guard, an empty line, the setup block, [m], the teardown
    block and the closer: one setup block behind the guard, one teardown
    block right before the final closing brace, [pre], the guard and [m]
    kept in order; the white space [w] and [w'] is not kept. *)
Theorem patch_guarded_handler
        (pre w1 : text) (q1 q2 : char) (w2 w m w' : text) :
  spaces w1 = true -> quote q1 = true -> quote q2 = true ->
  spaces w2 = true -> spaces w = true ->
  starts_blank m = false -> last (w ++ m) rbrace = nl ->
  blank w' = true ->
  match_positions guard_re
    (pre ++ guard_with w1 q1 q2 w2 ++ w ++ m ++ rbrace :: w') = [length pre] ->
  transform (pre ++ guard_with w1 q1 q2 w2 ++ w ++ m ++ rbrace :: w') =
    pre ++ guard_with w1 q1 q2 w2 ++ [nl; nl] ++ db_connection_code
        ++ m ++ finally_block ++ [nl; rbrace].
Proof.
  intros H1 Hq1 Hq2 H2 Hw Hm Hlast Hw' Hpos.
  unfold transform.
  rewrite transform_a_guard; try assumption.
  2:{ destruct m; [reflexivity | exact Hm]. }
  assert (E : exists u, db_connection_code ++ m = u ++ [nl]).
  { destruct m as [|c m].
    - exists (removelast db_connection_code).
      rewrite app_nil_r. exact db_connection_code_last.
    - rewrite last_app_r in Hlast by discriminate.
      exists (db_connection_code ++ removelast (c :: m)).
      rewrite <- app_assoc. f_equal.
      rewrite <- Hlast. apply app_removelast_last. discriminate. }
  destruct E as [u E].
  replace (pre ++ guard_with w1 q1 q2 w2 ++ [nl; nl] ++ db_connection_code
               ++ m ++ rbrace :: w')
    with ((pre ++ guard_with w1 q1 q2 w2 ++ [nl; nl] ++ u)
            ++ nl :: rbrace :: w').
  - rewrite transform_b_closer by exact Hw'.
    unfold teardown_text.
    replace (db_connection_code ++ m ++ finally_block ++ [nl; rbrace])
      with ((db_connection_code ++ m) ++ finally_block ++ [nl; rbrace])
      by now rewrite <- app_assoc.
    rewrite E. repeat rewrite <- app_assoc. reflexivity.
  - replace (db_connection_code ++ m ++ rbrace :: w')
      with ((db_connection_code ++ m) ++ rbrace :: w')
      by now rewrite <- app_assoc.
    rewrite E. repeat rewrite <- app_assoc. reflexivity.
Qed.

Lemma example_handler_parts :
  example_handler =
    example_pre
      ++ guard_with (str (LF ++ "    ")%string) 39%N 39%N (str (LF ++ "  ")%string)
      ++ str (LF ++ "  ")%string ++ example_mid ++ rbrace :: [nl].
Proof. reflexivity. Qed.

Lemma patch_guarded_handler_witness :
  transform example_handler =
    example_pre
      ++ guard_with (str (LF ++ "    ")%string) 39%N 39%N (str (LF ++ "  ")%string)
      ++ [nl; nl] ++ db_connection_code ++ example_mid
      ++ finally_block ++ [nl; rbrace].
Proof.
  change example_handler
    with (example_pre
            ++ guard_with (str (LF ++ "    ")%string) 39%N 39%N
                          (str (LF ++ "  ")%string)
            ++ str (LF ++ "  ")%string ++ example_mid ++ rbrace :: [nl]).
  apply (patch_guarded_handler example_pre (str (LF ++ "    ")%string)
           39%N 39%N (str (LF ++ "  ")%string) (str (LF ++ "  ")%string)
           example_mid [nl]); reflexivity.
Defined.

(** C1, as stated, fails: were every character of the original kept in
    order, the original would be a subsequence of the output.  In the
    handler indented with tabs the tab behind the guard is taken by the
    trailing [\s+] of the first pattern and does not come back. *)
Lemma tab_handler_not_preserved :
  has_guard tab_handler = true /\ has_closer tab_handler = true /\
  subseqb tab_handler (transform tab_handler) = false.
Proof. repeat split; vm_compute; reflexivity. Qed.

(* ------------------------------------------------------------------ *)
(** * Occurrences of a block *)

Lemma text_eqb_eq (a b : text) : text_eqb a b = true -> a = b.
Proof.
  revert b. induction a as [|x a IH]; intros [|y b] H; simpl in H;
    try discriminate; [reflexivity|].
  apply andb_true_iff in H as [Hx H]. apply N.eqb_eq in Hx.
  now rewrite Hx, (IH b H).
Qed.

Lemma text_eqb_refl (a : text) : text_eqb a a = true.
Proof.
  induction a as [|x a IH]; [reflexivity|].
  simpl. now rewrite N.eqb_refl.
Qed.

Lemma prefixb_app (p b : text) : prefixb p (p ++ b) = true.
Proof.
  induction p as [|x p IH]; [reflexivity|].
  simpl. now rewrite N.eqb_refl.
Qed.

Lemma prefixb_inv (p s : text) :
  prefixb p s = true -> exists b, s = p ++ b.
Proof.
  revert s. induction p as [|x p IH]; intros s H.
  - now exists s.
  - destruct s as [|y s]; [discriminate|]. simpl in H.
    apply andb_true_iff in H as [Hx H]. apply N.eqb_eq in Hx. subst y.
    destruct (IH s H) as [b ->]. now exists b.
Qed.

(** [occurrences p s] is zero exactly when [p] is no infix of [s]. *)
Lemma occurrences_zero (p s : text) :
  occurrences p s = 0 <-> (forall a b, s <> a ++ p ++ b).
Proof.
  split.
  - revert p. induction s as [|c s IH]; intros p H a b E.
    + simpl in H. destruct a; [|discriminate].
      destruct p; [discriminate|discriminate].
    + simpl in H. destruct a as [|x a].
      * simpl in E. rewrite E, prefixb_app in H. discriminate.
      * injection E as _ E.
        refine (IH p _ a b E).
        destruct (prefixb p (c :: s)); simpl in H; [discriminate|exact H].
  - induction s as [|c s IH]; intros H.
    + simpl. destruct (prefixb p []) eqn:E; [|reflexivity].
      apply prefixb_inv in E as [b E]. now elim (H [] b).
    + simpl. destruct (prefixb p (c :: s)) eqn:E.
      * apply prefixb_inv in E as [b E]. now elim (H [] b).
      * simpl. apply IH. intros a b E'. apply (H (c :: a) b).
        simpl. now rewrite E'.
Qed.

(** No end of the setup block, two characters or more, starts the
    teardown text. *)
Lemma setup_teardown_disjoint :
  forallb (fun j => negb (text_eqb (firstn j teardown_text)
                            (skipn (length db_connection_code - j)
                                   db_connection_code)))
          (seq 2 (length teardown_text - 1)) = true.
Proof. vm_compute. reflexivity. Qed.

(** Replacing the closer by the teardown text brings no setup block in. *)
Lemma teardown_adds_no_setup (pre w : text) :
  occurrences db_connection_code (pre ++ nl :: rbrace :: w) = 0 ->
  occurrences db_connection_code (pre ++ teardown_text) = 0.
Proof.
  rewrite !occurrences_zero. intros H a b E.
  assert (Hpre : forall x y, pre ++ [nl] <> x ++ db_connection_code ++ y).
  { intros x y Exy. apply (H x (y ++ rbrace :: w)).
    change (nl :: rbrace :: w) with ([nl] ++ rbrace :: w).
    rewrite app_assoc, Exy. now rewrite <- !app_assoc. }
  rewrite app_assoc in E.
  apply app_eq_app in E as [l [[E1 E2]|[E1 E2]]].
  - apply (Hpre a (l ++ [nl])). rewrite E1. now rewrite <- !app_assoc.
  - destruct l as [|c0 [|c1 l]].
    + rewrite app_nil_r in E1. apply (Hpre a [nl]).
      now rewrite <- E1, <- app_assoc.
    + unfold teardown_text in E2. injection E2 as <- _. apply (Hpre a []).
      now rewrite app_nil_r, E1.
    + assert (Hl : length (c0 :: c1 :: l) <= length teardown_text)
        by (rewrite E2, length_app; lia).
      apply app_eq_app in E1 as [l' [[E3 E4]|[E3 E4]]].
      * (* the teardown text is shorter than the setup block *)
        assert (L : length teardown_text < length db_connection_code)
          by (apply Nat.ltb_lt; vm_compute; reflexivity).
        rewrite E4, length_app in Hl. lia.
      * (* the setup block would end inside the teardown text *)
        pose proof setup_teardown_disjoint as D.
        rewrite forallb_forall in D.
        specialize (D (length (c0 :: c1 :: l))).
        rewrite in_seq in D.
        assert (Hj : 2 <= length (c0 :: c1 :: l)
                     < 2 + (length teardown_text - 1))
          by (simpl in *; lia).
        specialize (D Hj). clear Hj Hl.
        assert (F : firstn (length (c0 :: c1 :: l)) teardown_text
                    = c0 :: c1 :: l).
        { rewrite E2, firstn_app, firstn_all, Nat.sub_diag.
          cbn [firstn]. apply app_nil_r. }
        assert (K : skipn (length db_connection_code
                           - length (c0 :: c1 :: l)) db_connection_code
                    = c0 :: c1 :: l).
        { rewrite E4 at 1. rewrite length_app.
          replace (length l' + length (c0 :: c1 :: l)
                   - length (c0 :: c1 :: l)) with (length l' + 0) by lia.
          rewrite E4, skipn_app, Nat.add_0_r, skipn_all, Nat.sub_diag.
          reflexivity. }
        rewrite F, K, text_eqb_refl in D. discriminate.
Qed.

(** C2. A text without the guard pattern that ends with a newline, a closing
    brace and optional white space: Transform A inserts nothing, so the
    output holds no setup block unless the input did, and Transform B still
    puts the teardown block in front of the closer. *)
Theorem guardless_file_patched (pre w : text) :
  has_guard (pre ++ nl :: rbrace :: w) = false -> blank w = true ->
  transform_a (pre ++ nl :: rbrace :: w) = pre ++ nl :: rbrace :: w /\
  transform (pre ++ nl :: rbrace :: w) =
    pre ++ [nl] ++ finally_block ++ [nl; rbrace] /\
  (occurrences db_connection_code (pre ++ nl :: rbrace :: w) = 0 ->
   occurrences db_connection_code (transform (pre ++ nl :: rbrace :: w)) = 0).
Proof.
  intros Hg Hw. unfold transform.
  rewrite (transform_a_no_match _ Hg).
  split; [reflexivity|].
  rewrite (transform_b_closer pre w Hw).
  split; [reflexivity|]. apply teardown_adds_no_setup.
Qed.

Lemma guardless_file_patched_witness :
  has_guard (guardless_pre ++ nl :: rbrace :: [nl]) = false /\
  blank [nl] = true /\
  transform (guardless_pre ++ nl :: rbrace :: [nl]) =
    guardless_pre ++ [nl] ++ finally_block ++ [nl; rbrace] /\
  occurrences db_connection_code
    (transform (guardless_pre ++ nl :: rbrace :: [nl])) = 0.
Proof.
  split; [reflexivity|]. split; [reflexivity|].
  destruct (guardless_file_patched guardless_pre [nl] eq_refl eq_refl)
    as (_ & H2 & H3).
  split; [exact H2 | apply H3; reflexivity].
Defined.

(** C3. The combined transform is not idempotent.  On the example handler,
    which holds the guard and ends with the closer, a second application
    gives a different text than the first: the setup block stands in it
    twice (the older copy from its first non-blank character on) and the
    teardown block twice. *)
Theorem patch_not_idempotent :
  has_guard example_handler = true /\ has_closer example_handler = true /\
  transform (transform example_handler) <> transform example_handler /\
  transform (transform example_handler) =
    example_pre
      ++ guard_with (str (LF ++ "    ")%string) 39%N 39%N
                    (str (LF ++ "  ")%string)
      ++ [nl; nl] ++ db_connection_code ++ setup_body ++ example_mid
      ++ finally_block ++ [nl] ++ finally_block ++ [nl; rbrace] /\
  occurrences setup_body example_handler = 0 /\
  occurrences setup_body (transform example_handler) = 1 /\
  occurrences setup_body (transform (transform example_handler)) = 2 /\
  occurrences finally_block example_handler = 0 /\
  occurrences finally_block (transform example_handler) = 1 /\
  occurrences finally_block (transform (transform example_handler)) = 2.
Proof.
  repeat split; try (vm_compute; reflexivity).
  intros H. apply (f_equal (@length char)) in H.
  vm_compute in H. discriminate.
Qed.

(** The second run's [\s+] takes the two spaces in front of the setup block
    the first run inserted: of the two copies only the new one keeps the
    indentation of its first line. *)
Remark second_run_eats_indent :
  occurrences db_connection_code (transform (transform example_handler)) = 1.
Proof. vm_compute. reflexivity. Qed.

(* ------------------------------------------------------------------ *)
(** * The loop *)

Lemma for_each_cons (x : string) (l : list string) (body : string -> M unit)
      (w : world) :
  for_each (x :: l) body w =
    match body x w with
    | (inr _, w') => for_each l body w'
    | (inl e, w') => (inl e, w')
    end.
Proof. reflexivity. Qed.

(** The outcome of the [try] body depends on the node of the path only. *)
Lemma patch_body_outcome (p : string) (w : world) :
  fst (patch_body p w) =
    match on_read (fs w p) with
    | inl e => inl e
    | inr _ =>
        match on_write (fs w p) with
        | Some e => inl e
        | None => inr tt
        end
    end.
Proof.
  unfold patch_body, bind, read_file, write_file, print. cbn [fs].
  destruct (on_read (fs w p)); [reflexivity|].
  destruct (on_write (fs w p)); reflexivity.
Qed.

Lemma patch_body_outcome_eq (p : string) (w1 w2 : world) :
  fs w1 p = fs w2 p -> fst (patch_body p w1) = fst (patch_body p w2).
Proof. intros E. rewrite !patch_body_outcome. now rewrite E. Qed.

(** One turn of the loop: no exception leaves it, one line is printed, the
    node of the path alone may change. *)
Lemma patch_file_spec (p : string) (w : world) :
  fst (patch_file p w) = inr tt /\
  fs (snd (patch_file p w)) p = node_after (fs w p) /\
  (forall q, q <> p -> fs (snd (patch_file p w)) q = fs w q) /\
  stdout (snd (patch_file p w)) =
    stdout w ++ [report p (fst (patch_body p w))] /\
  opened (snd (patch_file p w)) = opened w ++ opens p (fs w p).
Proof.
  rewrite patch_body_outcome.
  unfold patch_file, try_except, patch_body, bind, read_file, write_file,
    print, node_after, opens, transform, transform_a, transform_b.
  cbn [fs stdout opened].
  destruct (on_read (fs w p)) as [e|c].
  - destruct e as [[] msg]; cbn; repeat split; reflexivity.
  - destruct (on_write (fs w p)) as [e|].
    + destruct e as [[] msg]; cbn; rewrite <- ?app_assoc;
        repeat split; reflexivity.
    + cbn. unfold store. rewrite String.eqb_refl, <- app_assoc.
      repeat split; try reflexivity.
      intros q Hq. apply String.eqb_neq in Hq. now rewrite Hq.
Qed.

Lemma flat_map_agree {X Y : Type} (f g : X -> list Y) (l : list X) :
  (forall x, In x l -> f x = g x) -> flat_map f l = flat_map g l.
Proof.
  induction l as [|x l IH]; intros H; [reflexivity|].
  cbn. rewrite (H x (or_introl eq_refl)), IH; [reflexivity|].
  intros y Hy. apply H. now right.
Qed.

(** The loop over a list of distinct paths. *)
Lemma for_each_spec (l : list string) :
  NoDup l ->
  forall w,
    fst (for_each l patch_file w) = inr tt /\
    (forall q, In q l ->
               fs (snd (for_each l patch_file w)) q = node_after (fs w q)) /\
    (forall q, ~ In q l -> fs (snd (for_each l patch_file w)) q = fs w q) /\
    stdout (snd (for_each l patch_file w)) =
      stdout w ++ map (fun p => report p (fst (patch_body p w))) l /\
    opened (snd (for_each l patch_file w)) =
      opened w ++ flat_map (fun p => opens p (fs w p)) l.
Proof.
  induction 1 as [|p l Hp Hl IH]; intros w.
  - cbn. rewrite !app_nil_r. repeat split; try reflexivity.
    intros q [].
  - rewrite for_each_cons.
    destruct (patch_file_spec p w) as (R & Fp & Fq & O & T).
    destruct (patch_file p w) as [r w1]. cbn [fst snd] in *. subst r.
    destruct (IH w1) as (R' & Fin & Fout & O' & T').
    split; [exact R'|]. split; [|split; [|split]].
    + intros q [<-|Hq].
      * rewrite (Fout p Hp). exact Fp.
      * rewrite (Fin q Hq). f_equal. apply Fq. intros ->. contradiction.
    + intros q Hq. rewrite Fout by (intros Hin; apply Hq; now right).
      apply Fq. intros ->. apply Hq. now left.
    + rewrite O', O. rewrite <- app_assoc. cbn [map app]. do 2 f_equal.
      apply map_ext_in. intros a Ha. f_equal.
      apply patch_body_outcome_eq. apply Fq. intros ->. contradiction.
    + rewrite T', T. rewrite <- app_assoc. cbn [flat_map]. do 2 f_equal.
      apply flat_map_agree. intros a Ha. f_equal.
      apply Fq. intros ->. contradiction.
Qed.



(* ------------------------------------------------------------------ *)
(** * The run *)




(* ------------------------------------------------------------------ *)
(** * More on the first pattern *)

Lemma lead_blank_lstrip (s : text) : s = lead_blank s ++ lstrip s.
Proof.
  induction s as [|c s IH]; [reflexivity|].
  simpl. destruct (is_space c); [simpl; now rewrite <- IH | reflexivity].
Qed.

Lemma lead_blank_blank (s : text) : blank (lead_blank s) = true.
Proof.
  induction s as [|c s IH]; [reflexivity|].
  simpl. destruct (is_space c) eqn:E; [|reflexivity].
  cbn [blank forallb]. rewrite E. exact IH.
Qed.

Lemma lstrip_starts (s : text) : starts_blank (lstrip s) = false.
Proof.
  induction s as [|c s IH]; [reflexivity|].
  simpl. destruct (is_space c) eqn:E; [exact IH|]. simpl. exact E.
Qed.

Lemma spaces_app (w u : text) :
  spaces w = true -> blank u = true -> spaces (w ++ u) = true.
Proof.
  destruct w as [|c w]; [discriminate|]. cbn [spaces app].
  intros Hw Hu. change (blank ((c :: w) ++ u) = true).
  rewrite blank_app, Hw, Hu. reflexivity.
Qed.

Lemma re_search_app (r : regex) (pre s : text) :
  matches r s = true -> re_search r (pre ++ s) = true.
Proof.
  intros H. induction pre as [|c pre IH].
  - destruct s; simpl; now rewrite H.
  - cbn [app re_search]. rewrite IH. apply orb_true_r.
Qed.

(** X1. The guard pattern is found wherever a guard stands that is followed
    by white space: whatever the (non-empty) white space inside the guard,
    whichever of the two quote characters on either side of [Unauthorized]
    (they need not agree), and whatever precedes and follows. *)
Theorem guard_found (pre w1 : text) (q1 q2 : char) (w2 w rest : text) :
  spaces w1 = true -> quote q1 = true -> quote q2 = true ->
  spaces w2 = true -> spaces w = true ->
  has_guard (pre ++ guard_with w1 q1 q2 w2 ++ w ++ rest) = true.
Proof.
  intros H1 Hq1 Hq2 H2 Hw. unfold has_guard.
  apply re_search_app. unfold matches.
  rewrite (lead_blank_lstrip rest), (app_assoc w).
  rewrite (guard_re_match w1 q1 q2 w2 (w ++ lead_blank rest) (lstrip rest));
    try assumption; [reflexivity | |apply lstrip_starts].
  apply spaces_app; [exact Hw | apply lead_blank_blank].
Qed.

Lemma guard_found_witness :
  has_guard (str "x = 1; "
             ++ guard_with [9%N] 34%N 39%N (str (LF ++ LF)%string)
             ++ [32%N] ++ str "  y = 2;") = true.
Proof.
  apply (guard_found (str "x = 1; ") [9%N] 34%N 39%N (str (LF ++ LF)%string)
           [32%N] (str "  y = 2;")); reflexivity.
Defined.

Section MatcherFailures.
Variable A : Type.

(** A literal that starts with a non-blank character does not read a text
    that starts with white space. *)
Lemma rmatch_lits_blank (c : char) (l u : text) (g : option text)
      (k : text -> option text -> option A) :
  is_space c = false -> starts_blank u = true ->
  rmatch (lits (c :: l)) u g k = None.
Proof.
  intros Hc Hu. destruct u as [|x u]; [discriminate|].
  cbn [lits]. rewrite rmatch_cat. cbn [rmatch].
  destruct (N.eqb_spec x c) as [->|]; [|reflexivity].
  simpl in Hu. congruence.
Qed.

(** When the continuation refuses what follows the longest run and every
    text that starts with white space, the greedy loop fails. *)
Lemma greedy_none (w t : text) (k : text -> option A) :
  blank w = true -> starts_blank t = false -> k t = None ->
  (forall u, starts_blank u = true -> k u = None) ->
  greedy is_space k (w ++ t) = None.
Proof.
  intros Hw Ht Hk Hb. induction w as [|c w IH].
  - destruct t as [|c t]; [exact Hk|].
    simpl in Ht |- *. now rewrite Ht.
  - cbn [blank forallb] in Hw. apply andb_true_iff in Hw as [Hc Hw].
    cbn [app greedy]. rewrite Hc, (IH Hw). apply Hb. exact Hc.
Qed.

Lemma rmatch_plus_none (w t : text) (g : option text)
      (k : text -> option text -> option A) :
  blank w = true -> starts_blank t = false -> k t g = None ->
  (forall u, starts_blank u = true -> k u g = None) ->
  rmatch (Plus is_space) (w ++ t) g k = None.
Proof.
  intros Hw Ht Hk Hb. destruct w as [|c w].
  - destruct t as [|c t]; [reflexivity|].
    simpl in Ht |- *. now rewrite Ht.
  - cbn [blank forallb] in Hw. apply andb_true_iff in Hw as [Hc Hw].
    cbn [app rmatch]. rewrite Hc.
    now apply (greedy_none w t (fun u => k u g)).
Qed.

(** [\s+] reads nothing from a text that does not start with white
    space. *)
Lemma rmatch_plus_nonblank (t : text) (g : option text)
      (k : text -> option text -> option A) :
  starts_blank t = false -> rmatch (Plus is_space) t g k = None.
Proof.
  intros Ht. destruct t as [|c t]; [reflexivity|].
  simpl in Ht |- *. now rewrite Ht.
Qed.

End MatcherFailures.

(** X2. The first pattern wants white space behind the guard: at a guard
    that is followed by a non-blank character, or by the end of the text,
    it does not match. *)
Theorem guard_needs_space (w1 : text) (q1 q2 : char) (w2 rest : text) :
  spaces w1 = true -> quote q1 = true -> quote q2 = true ->
  spaces w2 = true -> starts_blank rest = false ->
  re_match guard_re (guard_with w1 q1 q2 w2 ++ rest) = None.
Proof.
  intros H1 Hq1 Hq2 H2 Hr.
  assert (B1 : blank w1 = true) by (destruct w1; [discriminate|exact H1]).
  assert (B2 : blank w2 = true) by (destruct w2; [discriminate|exact H2]).
  unfold re_match, guard_re, guard_group, guard_with.
  repeat rewrite <- app_assoc.
  rewrite rmatch_cat, rmatch_group.
  rewrite rmatch_cat, rmatch_lits, rmatch_cat.
  apply rmatch_plus_none; [exact B1 | reflexivity | |].
  - rewrite rmatch_cat, rmatch_lits, rmatch_cat. cbn [app].
    rewrite rmatch_class by exact Hq1.
    rewrite rmatch_cat, rmatch_lits, rmatch_cat. cbn [app].
    rewrite rmatch_class by exact Hq2.
    rewrite rmatch_cat, rmatch_lits, rmatch_cat.
    apply rmatch_plus_none; [exact B2 | reflexivity | |].
    + change (rbrace :: rest) with (str "}" ++ rest). rewrite rmatch_lits.
      now apply rmatch_plus_nonblank.
    + intros u Hu. now apply rmatch_lits_blank.
  - intros u Hu. rewrite rmatch_cat. now apply rmatch_lits_blank.
Qed.

Lemma guard_needs_space_witness :
  re_match guard_re (example_guard ++ str " else { }") <> None /\
  re_match guard_re (example_guard ++ str "// no access") = None /\
  re_match guard_re (example_guard ++ []) = None.
Proof.
  split; [vm_compute; discriminate|]. split.
  - apply (guard_needs_space (str (LF ++ "    ")%string) 39%N 39%N
             (str (LF ++ "  ")%string) (str "// no access")); reflexivity.
  - apply (guard_needs_space (str (LF ++ "    ")%string) 39%N 39%N
             (str (LF ++ "  ")%string) []); reflexivity.
Defined.

(* ------------------------------------------------------------------ *)
(** * How the substitutions proceed *)

Lemma search_start_from_ge (r : regex) (s : text) :
  forall i x, search_start_from i r s = Some x -> i <= x.
Proof.
  induction s as [|c s IH]; intros i x; simpl.
  - destruct (matches r []); [|discriminate]. intros [= <-]. lia.
  - destruct (matches r (c :: s)).
    + intros [= <-]. lia.
    + intros H. apply IH in H. lia.
Qed.

(** Nothing in front of the leftmost match matches. *)
Lemma search_start_before (r : regex) (pre rest : text) :
  forall i,
    search_start_from i r (pre ++ rest) = Some (i + length pre) ->
    forall a b, pre = a ++ b -> b <> [] -> matches r (b ++ rest) = false.
Proof.
  induction pre as [|c pre IH]; intros i H a b Hab Hb.
  - destruct a; destruct b; try discriminate. congruence.
  - cbn [app search_start_from] in H.
    destruct (matches r (c :: pre ++ rest)) eqn:Hm.
    + injection H as H. simpl in H. lia.
    + replace (i + length (c :: pre)) with (S i + length pre) in H
        by (simpl; lia).
      destruct a as [|c' a].
      * simpl in Hab. subst b. exact Hm.
      * simpl in Hab. injection Hab as _ Hab.
        exact (IH (S i) H a b Hab Hb).
Qed.

(** X3. Transform A works from left to right: when the leftmost match of
    the guard pattern is the guard behind [pre], the output is [pre], that
    guard, two newlines, the setup block, and Transform A of what follows
    the white space behind the guard.  So every guard further on gets a
    setup block of its own. *)
Theorem transform_a_leftmost
        (pre w1 : text) (q1 q2 : char) (w2 w rest : text) :
  spaces w1 = true -> quote q1 = true -> quote q2 = true ->
  spaces w2 = true -> spaces w = true -> starts_blank rest = false ->
  search_start guard_re (pre ++ guard_with w1 q1 q2 w2 ++ w ++ rest)
    = Some (length pre) ->
  transform_a (pre ++ guard_with w1 q1 q2 w2 ++ w ++ rest) =
    pre ++ guard_with w1 q1 q2 w2 ++ [nl; nl] ++ db_connection_code
        ++ transform_a rest.
Proof.
  intros H1 Hq1 Hq2 H2 Hw Hr Hpos.
  pose proof (guard_re_match w1 q1 q2 w2 w rest H1 Hq1 Hq2 H2 Hw Hr) as Hm.
  unfold transform_a, re_sub. rewrite re_subn_skip.
  - rewrite (@re_subn_replace _ setup_template _ _ Hm).
    + cbn [after group1 fst setup_template expand]. rewrite expand_tlits.
      now rewrite <- app_assoc.
    + cbn [after]. rewrite !length_app.
      pose proof (guard_with_length w1 q1 q2 w2). lia.
  - apply (@search_start_before guard_re pre _ 0). exact Hpos.
Qed.

Lemma transform_a_leftmost_witness :
  transform_a (str "a();"
               ++ guard_with (str (LF ++ "    ")%string) 39%N 39%N
                             (str (LF ++ "  ")%string)
               ++ [nl] ++ (str "b();" ++ example_guard ++ str " c();")) =
    str "a();"
      ++ guard_with (str (LF ++ "    ")%string) 39%N 39%N
                    (str (LF ++ "  ")%string)
      ++ [nl; nl] ++ db_connection_code
      ++ transform_a (str "b();" ++ example_guard ++ str " c();").
Proof.
  apply (transform_a_leftmost (str "a();") (str (LF ++ "    ")%string)
           39%N 39%N (str (LF ++ "  ")%string) [nl]
           (str "b();" ++ example_guard ++ str " c();")); reflexivity.
Defined.

Lemma teardown_text_not_closer (w : text) :
  teardown_text <> nl :: rbrace :: w.
Proof. unfold teardown_text. intros H. discriminate H. Qed.

(** X4. The second pattern is found exactly in the texts that end with a
    newline, a closing brace and optional white space, and these are the
    texts Transform B changes: all others it returns as they are. *)
Theorem transform_b_changes_iff (s : text) :
  (has_closer s = true <->
   exists pre w, s = pre ++ nl :: rbrace :: w /\ blank w = true) /\
  (transform_b s = s <-> has_closer s = false).
Proof.
  split; [apply has_closer_spec|]. split.
  - intros E. destruct (has_closer s) eqn:Hc; [exfalso | reflexivity].
    apply has_closer_spec in Hc as (pre & w & -> & Hw).
    rewrite (transform_b_closer pre w Hw) in E.
    apply app_inv_head in E. exact (teardown_text_not_closer w E).
  - intros Hc. unfold transform_b, re_sub.
    now rewrite (re_subn_no_match closer_re teardown_template s Hc).
Qed.

Lemma concat_repeat_snoc (x : text) (n : nat) :
  concat (repeat x n) ++ x = x ++ concat (repeat x n).
Proof.
  induction n as [|n IH]; cbn [repeat concat].
  - now rewrite app_nil_r.
  - now rewrite <- app_assoc, IH.
Qed.

(** X5. Transform B never settles: its output ends with the closer again,
    so on a text that ends with the closer [n + 1] applications leave
    [n + 1] teardown blocks in front of the closing brace. *)
Theorem transform_b_iterated (pre w : text) (n : nat) :
  blank w = true ->
  Nat.iter (S n) transform_b (pre ++ nl :: rbrace :: w) =
    pre ++ concat (repeat (nl :: finally_block) (S n)) ++ [nl; rbrace].
Proof.
  intros Hw. induction n as [|n IH].
  - cbn [Nat.iter nat_rect repeat concat]. rewrite app_nil_r.
    now rewrite (transform_b_closer pre w Hw).
  - change (Nat.iter (S (S n)) transform_b (pre ++ nl :: rbrace :: w))
      with (transform_b (Nat.iter (S n) transform_b
                                  (pre ++ nl :: rbrace :: w))).
    rewrite IH.
    replace (pre ++ concat (repeat (nl :: finally_block) (S n))
                 ++ [nl; rbrace])
      with ((pre ++ concat (repeat (nl :: finally_block) (S n)))
              ++ nl :: rbrace :: []) by now rewrite <- app_assoc.
    rewrite transform_b_closer by reflexivity.
    unfold teardown_text. rewrite <- app_assoc. f_equal.
    change (nl :: finally_block ++ [nl; rbrace])
      with ((nl :: finally_block) ++ [nl; rbrace]).
    rewrite app_assoc, concat_repeat_snoc. reflexivity.
Qed.

Lemma transform_b_iterated_witness :
  transform_b (transform_b (transform_b (guardless_pre ++ nl :: rbrace :: [nl])))
  = guardless_pre
      ++ (nl :: finally_block) ++ (nl :: finally_block)
      ++ (nl :: finally_block) ++ [nl; rbrace].
Proof.
  change (Nat.iter 3 transform_b (guardless_pre ++ nl :: rbrace :: [nl]) =
          guardless_pre ++ concat (repeat (nl :: finally_block) 3)
                        ++ [nl; rbrace]).
  apply (transform_b_iterated guardless_pre [nl] 2). reflexivity.
Defined.

(* ------------------------------------------------------------------ *)
(** * The two transforms together *)

Lemma find_app_found {X : Type} (f : X -> bool) (l1 l2 : list X) (y : X) :
  find f l1 = Some y -> find f (l1 ++ l2) = Some y.
Proof.
  induction l1 as [|x l1 IH]; [discriminate|].
  cbn [find app]. destruct (f x); [trivial | exact IH].
Qed.

Lemma last_nonblank_app (x y : text) (c : char) :
  last_nonblank y = Some c -> last_nonblank (x ++ y) = Some c.
Proof.
  unfold last_nonblank. rewrite rev_app_distr. apply find_app_found.
Qed.

Lemma last_nonblank_blank (w : text) :
  blank w = true -> last_nonblank w = None.
Proof.
  unfold last_nonblank, blank. intros H.
  destruct (find (fun c => negb (is_space c)) (rev w)) as [c|] eqn:E;
    [exfalso | reflexivity].
  apply find_some in E as [Hin Hc].
  apply in_rev in Hin. rewrite forallb_forall in H.
  rewrite (H c Hin) in Hc. discriminate.
Qed.

Lemma last_nonblank_snoc (x w : text) (c : char) :
  is_space c = false -> blank w = true ->
  last_nonblank (x ++ c :: w) = Some c.
Proof.
  intros Hc Hw. apply last_nonblank_app.
  unfold last_nonblank. cbn [rev].
  pose proof (last_nonblank_blank w Hw) as Hn. unfold last_nonblank in Hn.
  induction (rev w) as [|y l IH]; cbn [app find].
  - now rewrite Hc.
  - cbn [find] in Hn. destruct (negb (is_space y)); [discriminate|].
    exact (IH Hn).
Qed.

(** A text that ends with the setup block does not end with the closer. *)
Lemma no_closer_after_setup (x : text) :
  has_closer (x ++ db_connection_code) = false.
Proof.
  destruct (has_closer (x ++ db_connection_code)) eqn:Hc; [|reflexivity].
  apply has_closer_spec in Hc as (pre & w & E & Hw).
  apply (f_equal last_nonblank) in E.
  rewrite (last_nonblank_app x db_connection_code 123%N) in E
    by reflexivity.
  change (pre ++ nl :: rbrace :: w) with (pre ++ [nl] ++ rbrace :: w) in E.
  rewrite app_assoc, (last_nonblank_snoc _ w) in E by trivial.
  discriminate.
Qed.

(** X6. A text that ends behind its only guard, with nothing but white
    space after the guard's closing brace, gets the setup block and no
    teardown block: the output ends with the opening [try] line. *)
Theorem guard_at_end_gets_no_teardown
        (pre w1 : text) (q1 q2 : char) (w2 w : text) :
  spaces w1 = true -> quote q1 = true -> quote q2 = true ->
  spaces w2 = true -> spaces w = true ->
  match_positions guard_re (pre ++ guard_with w1 q1 q2 w2 ++ w)
    = [length pre] ->
  transform (pre ++ guard_with w1 q1 q2 w2 ++ w) =
    pre ++ guard_with w1 q1 q2 w2 ++ [nl; nl] ++ db_connection_code.
Proof.
  intros H1 Hq1 Hq2 H2 Hw Hpos. unfold transform.
  rewrite <- (app_nil_r w) in Hpos |- *.
  rewrite transform_a_guard; try assumption; [|reflexivity].
  rewrite app_nil_r. unfold transform_b, re_sub.
  rewrite re_subn_no_match; [reflexivity|].
  rewrite 2!app_assoc. apply no_closer_after_setup.
Qed.

Lemma guard_at_end_gets_no_teardown_witness :
  has_closer (str "function h() {"
              ++ guard_with (str (LF ++ "  ")%string) 39%N 39%N (str LF)
              ++ [nl]) = true /\
  transform (str "function h() {"
             ++ guard_with (str (LF ++ "  ")%string) 39%N 39%N (str LF)
             ++ [nl]) =
    str "function h() {"
      ++ guard_with (str (LF ++ "  ")%string) 39%N 39%N (str LF)
      ++ [nl; nl] ++ db_connection_code.
Proof.
  split; [reflexivity|].
  apply (guard_at_end_gets_no_teardown (str "function h() {")
           (str (LF ++ "  ")%string) 39%N 39%N (str LF) [nl]); reflexivity.
Defined.

(** X7. When the brace that closes the text follows the guard with white
    space only in between, the teardown block is inserted even if no
    newline stands before that brace: the newline that ends the setup
    block serves as the one the second pattern asks for. *)
Theorem guard_before_brace
        (pre w1 : text) (q1 q2 : char) (w2 w w' : text) :
  spaces w1 = true -> quote q1 = true -> quote q2 = true ->
  spaces w2 = true -> spaces w = true -> blank w' = true ->
  match_positions guard_re
    (pre ++ guard_with w1 q1 q2 w2 ++ w ++ rbrace :: w') = [length pre] ->
  transform (pre ++ guard_with w1 q1 q2 w2 ++ w ++ rbrace :: w') =
    pre ++ guard_with w1 q1 q2 w2 ++ [nl; nl] ++ db_connection_code
        ++ finally_block ++ [nl; rbrace].
Proof.
  intros H1 Hq1 Hq2 H2 Hw Hw' Hpos. unfold transform.
  rewrite transform_a_guard; try assumption; [|reflexivity].
  rewrite db_connection_code_last.
  replace (pre ++ guard_with w1 q1 q2 w2 ++ [nl; nl]
               ++ (removelast db_connection_code ++ [nl]) ++ rbrace :: w')
    with ((pre ++ guard_with w1 q1 q2 w2 ++ [nl; nl]
               ++ removelast db_connection_code) ++ nl :: rbrace :: w')
    by (repeat rewrite <- app_assoc; reflexivity).
  rewrite transform_b_closer by exact Hw'.
  unfold teardown_text. repeat rewrite <- app_assoc. reflexivity.
Qed.

Lemma guard_before_brace_witness :
  has_closer (str "function h() {" ++ example_guard ++ [32%N; rbrace]) = false
  /\
  transform (str "function h() {"
             ++ guard_with (str (LF ++ "    ")%string) 39%N 39%N
                           (str (LF ++ "  ")%string)
             ++ [32%N] ++ rbrace :: []) =
    str "function h() {"
      ++ guard_with (str (LF ++ "    ")%string) 39%N 39%N
                    (str (LF ++ "  ")%string)
      ++ [nl; nl] ++ db_connection_code ++ finally_block ++ [nl; rbrace].
Proof.
  split; [reflexivity|].
  apply (guard_before_brace (str "function h() {")
           (str (LF ++ "    ")%string) 39%N 39%N (str (LF ++ "  ")%string)
           [32%N] []); reflexivity.
Defined.

(* ------------------------------------------------------------------ *)
(** * More on the run *)









(* ------------------------------------------------------------------ *)
(** * The process *)

Lemma is_Exception_always (e : exn) : is_Exception e = true.
Proof. destruct e as [[] msg]; reflexivity. Qed.

Lemma put_other (i j : ino) (f : file) (fa : ino -> file) :
  j <> i -> put i f fa j = fa j.
Proof. intros H. unfold put. apply Nat.eqb_neq in H. now rewrite H. Qed.

Lemma put_same (i : ino) (f : file) (fa : ino -> file) : put i f fa i = f.
Proof. unfold put. now rewrite Nat.eqb_refl. Qed.

Lemma put_fifo (i j : ino) (f : file) (fa : ino -> file) :
  f <> Fifo -> put i f fa j = Fifo -> fa j = Fifo.
Proof.
  unfold put. intros Hf. destruct (Nat.eqb j i); [contradiction | trivial].
Qed.

(** Translating newlines leaves no carriage return. *)
Lemma universal_newlines_no_cr (n : nat) :
  forall raw, length raw <= n -> ~ In cr (universal_newlines raw).
Proof.
  induction n as [|n IH]; intros raw Hn.
  - destruct raw; [intros [] | simpl in Hn; lia].
  - destruct raw as [|c rest]; [intros []|].
    cbn [universal_newlines]. simpl in Hn.
    destruct (N.eqb_spec c cr) as [->|Hc].
    + intros [H|H]; [discriminate|].
      destruct rest as [|d rest']; [exact H|].
      simpl in Hn.
      destruct (d =? nl)%N; revert H; apply IH; simpl; lia.
    + intros [H|H]; [congruence|].
      revert H. apply IH. lia.
Qed.

Lemma universal_newlines_id (raw : text) :
  universal_newlines raw = raw <-> ~ In cr raw.
Proof.
  split.
  - intros E. rewrite <- E.
    apply (universal_newlines_no_cr (length raw)). lia.
  - induction raw as [|c rest IH]; intros H; [reflexivity|].
    cbn [universal_newlines].
    destruct (N.eqb_spec c cr) as [->|Hc].
    + elim H. now left.
    + rewrite IH; [reflexivity|]. intros Hin. apply H. now right.
Qed.

Section ProcessFacts.
Variable resolve : string -> ino.
Variable con : console.

Lemma each_step (x : string) (l : list string) (st : state) :
  each (x :: l) (turn resolve con) st =
    match turn resolve con x st with
    | (Returned _, st') => each l (turn resolve con) st'
    | (Raised e, st') => (Raised e, st')
    | (Blocked, st') => (Blocked, st')
    end.
Proof. reflexivity. Qed.

(** A turn of the loop touches the file its path leads to and no other,
    makes no pipe, and opens its own path only. *)
Lemma turn_frame (p : string) (st : state) :
  (forall i, i <> resolve p ->
             files_at (snd (turn resolve con p st)) i = files_at st i) /\
  (forall i, files_at (snd (turn resolve con p st)) i = Fifo ->
             files_at st i = Fifo) /\
  exists l, calls (snd (turn resolve con p st)) = calls st ++ l /\
            Forall (fun a => path_of a = p) l.
Proof.
  unfold turn, attempt, turn_body, then_, read_text, write_text, print_line.
  cbn [files_at printed calls print_calls].
  destruct (files_at st (resolve p)) as [|e|raw [|e|e k]] eqn:F;
    cbn [files_at printed calls print_calls]; rewrite ?F;
    repeat match goal with
           | |- context [refuses con ?n] => destruct (refuses con n) as [?e|]
           | |- context [is_Exception ?x] => rewrite (is_Exception_always x)
           end;
    cbn [snd files_at printed calls print_calls];
    (split; [intros i Hi; try reflexivity; now rewrite put_other
            |split; [intros i Hi; try exact Hi;
                     (eapply put_fifo; [|exact Hi]); discriminate|]]);
    rewrite <- ?app_assoc;
    eexists; (split; [reflexivity|]); repeat constructor.
Qed.

(** With a standard output that takes every line, a turn on a path that
    does not lead to a pipe returns: what the body raises is caught. *)
Lemma turn_returns (p : string) (st : state) :
  (forall n, refuses con n = None) ->
  files_at st (resolve p) <> Fifo ->
  fst (turn resolve con p st) = Returned tt.
Proof.
  intros Hc Hf.
  unfold turn, attempt, turn_body, then_, read_text, write_text, print_line.
  cbn [files_at printed calls print_calls].
  destruct (files_at st (resolve p)) as [|e|raw [|e|e k]] eqn:F;
    [contradiction| | | |];
    cbn [files_at printed calls print_calls]; rewrite ?F;
    rewrite ?is_Exception_always;
    cbn [files_at printed calls print_calls];
    rewrite ?Hc; reflexivity.
Qed.

Lemma turn_blocks (p : string) (st : state) :
  files_at st (resolve p) = Fifo ->
  fst (turn resolve con p st) = Blocked.
Proof.
  intros F.
  unfold turn, attempt, turn_body, then_, read_text.
  cbn [files_at]. now rewrite F.
Qed.

(** The loop: files beside those the paths lead to are left alone, and
    only the paths of the list are opened. *)
Lemma each_frame (l : list string) :
  forall st,
    (forall i, ~ In i (map resolve l) ->
               files_at (snd (each l (turn resolve con) st)) i
               = files_at st i) /\
    exists L, calls (snd (each l (turn resolve con) st)) = calls st ++ L /\
              Forall (fun a => In (path_of a) l) L.
Proof.
  induction l as [|x l IH]; intros st.
  - split; [reflexivity|]. exists []. now rewrite app_nil_r.
  - rewrite each_step.
    destruct (turn_frame x st) as (Fr & _ & Lx & Cx & Px).
    assert (Px' : Forall (fun a => In (path_of a) (x :: l)) Lx).
    { eapply Forall_impl; [|exact Px]. intros a <-. now left. }
    destruct (turn resolve con x st) as [[u|e|] st1]; cbn [snd] in *.
    + destruct (IH st1) as (Fr' & L & C & PL). split.
      * intros i Hi. rewrite Fr'.
        -- apply Fr. intros ->. apply Hi. now left.
        -- intros Hin. apply Hi. now right.
      * exists (Lx ++ L). rewrite C, Cx, app_assoc. split; [reflexivity|].
        apply Forall_app. split; [exact Px'|].
        eapply Forall_impl; [|exact PL]. intros a Ha. now right.
    + split; [|now exists Lx].
      intros i Hi. apply Fr. intros ->. apply Hi. now left.
    + split; [|now exists Lx].
      intros i Hi. apply Fr. intros ->. apply Hi. now left.
Qed.

Lemma each_returns (l : list string) :
  (forall n, refuses con n = None) ->
  forall st,
    (forall p, In p l -> files_at st (resolve p) <> Fifo) ->
    fst (each l (turn resolve con) st) = Returned tt.
Proof.
  intros Hc. induction l as [|x l IH]; intros st Hf; [reflexivity|].
  rewrite each_step.
  pose proof (turn_returns x st Hc (Hf x (or_introl eq_refl))) as R.
  destruct (turn_frame x st) as (_ & Ff & _).
  destruct (turn resolve con x st) as [o st1]. cbn [fst snd] in *.
  subst o. apply IH. intros p Hp F.
  apply (Hf p (or_intror Hp)). now apply Ff.
Qed.

End ProcessFacts.

(** C2, as stated, fails on a text without guard that holds the setup
    block: nothing is inserted, and the block it held is still there. *)
Lemma setup_without_guard_keeps_block :
  has_guard setup_without_guard = false /\
  has_closer setup_without_guard = true /\
  occurrences db_connection_code (transform setup_without_guard) = 1.
Proof. repeat split; vm_compute; reflexivity. Qed.

(** C5, as the code has it.  When none of the listed paths leads to a pipe
    that blocks, and the standard output takes every line and flushes at
    exit, no exception leaves a turn of the loop, the script returns and
    the exit status is 0, however many files failed. *)
Theorem process_exits_zero
        (resolve : string -> ino) (con : console) (fa : ino -> file) :
  (forall p, In p files -> fa (resolve p) <> Fifo) ->
  (forall n, refuses con n = None) -> flush_fails con = false ->
  (forall p st, files_at st (resolve p) <> Fifo ->
                fst (turn resolve con p st) = Returned tt) /\
  fst (process resolve con fa) = Returned tt /\
  exit_code con (fst (process resolve con fa)) = Some 0.
Proof.
  intros Hf Hc Hx.
  split; [intros p st; now apply turn_returns|].
  assert (R : fst (process resolve con fa) = Returned tt).
  { unfold process, script. now apply each_returns. }
  split; [exact R|]. rewrite R. cbn. now rewrite Hx.
Qed.

Lemma process_exits_zero_witness :
  fst (process tree_resolve tty leases_disk) = Returned tt /\
  exit_code tty (fst (process tree_resolve tty leases_disk)) = Some 0.
Proof.
  apply (process_exits_zero tree_resolve tty leases_disk).
  - intros p Hp. unfold leases_disk.
    destruct (Nat.eqb (tree_resolve p) 3); discriminate.
  - reflexivity.
  - reflexivity.
Defined.

(** C5, as stated, fails.  With a pipe at a listed path the run never
    ends; with a standard output that refuses, the [print] of the handler
    raises outside any [try] and the exit status is 1; when the flush at
    exit fails it is 120. *)
Lemma process_may_not_exit_zero :
  exit_code tty (fst (process tree_resolve tty pipe_disk)) = None /\
  exit_code full_device (fst (process tree_resolve full_device leases_disk))
    = Some 1 /\
  exit_code full_device_buffered
            (fst (process tree_resolve full_device_buffered leases_disk))
    = Some 120.
Proof. repeat split; vm_compute; reflexivity. Qed.

(** C7, as the code has it.  The run opens the five listed paths and no
    other, and every file that none of the five paths leads to is after
    the run what it was before, whether the run returns, raises or
    blocks. *)
Theorem only_listed_files_touched
        (resolve : string -> ino) (con : console) (fa : ino -> file)
        (i : ino) :
  ~ In i (map resolve files) ->
  files_at (snd (process resolve con fa)) i = fa i /\
  incl (map path_of (calls (snd (process resolve con fa))))
       [ "api/tenants/index.ts"; "api/units/index.ts"; "api/leases/index.ts";
         "api/payments/index.ts"; "api/dashboard/stats.ts" ]%string.
Proof.
  intros Hi. unfold process, script.
  destruct (each_frame resolve con files (State fa [] [] 0))
    as (Fr & L & C & PL).
  split; [now apply Fr|].
  rewrite C. cbn [calls app]. intros x Hx.
  apply in_map_iff in Hx as (a & <- & Ha).
  rewrite Forall_forall in PL. exact (PL a Ha).
Qed.

Lemma only_listed_files_touched_witness :
  files_at (snd (process tree_resolve tty leases_disk)) 0 = leases_disk 0 /\
  incl (map path_of (calls (snd (process tree_resolve tty leases_disk))))
       files.
Proof.
  apply (only_listed_files_touched tree_resolve tty leases_disk 0).
  cbn. intuition discriminate.
Defined.

(** C7, as stated, fails: a path that is not in the list and leads to a
    listed file, here the same file spelled with [./] in front, has another
    content after the run. *)
Lemma unlisted_path_changed :
  ~ In "./api/leases/index.ts"%string files /\
  leases_disk (tree_resolve "./api/leases/index.ts")
    = Regular example_handler Writable /\
  files_at (snd (process tree_resolve tty leases_disk))
           (tree_resolve "./api/leases/index.ts")
    = Regular (transform example_handler) Writable /\
  transform example_handler <> example_handler.
Proof.
  split; [cbn; intuition discriminate|].
  split; [reflexivity|]. split; [vm_compute; reflexivity|].
  intros H. apply (f_equal (@length char)) in H.
  vm_compute in H. discriminate.
Qed.

(** C9, as the code has it.  When the text read from a file, that is, its
    content after the translation of newlines, holds neither the guard
    pattern nor the closer, the two transforms return it unchanged, the
    file is written with the text that was read, and the success line is
    printed when the standard output takes it.  The file is then what it
    was exactly when it held no carriage return. *)
Theorem unmatched_file_rewritten
        (resolve : string -> ino) (con : console) (st : state)
        (p : string) (raw : text) :
  files_at st (resolve p) = Regular raw Writable ->
  refuses con (print_calls st) = None ->
  has_guard (universal_newlines raw) = false ->
  has_closer (universal_newlines raw) = false ->
  transform (universal_newlines raw) = universal_newlines raw /\
  fst (turn resolve con p st) = Returned tt /\
  files_at (snd (turn resolve con p st)) (resolve p)
    = Regular (universal_newlines raw) Writable /\
  printed (snd (turn resolve con p st))
    = printed st ++ [("Fixed " ++ p)%string] /\
  (universal_newlines raw = raw <-> ~ In cr raw).
Proof.
  intros F Hc Hg Hcl.
  assert (E : transform (universal_newlines raw) = universal_newlines raw).
  { unfold transform. rewrite (transform_a_no_match _ Hg).
    unfold transform_b, re_sub.
    now rewrite (re_subn_no_match closer_re teardown_template _ Hcl). }
  split; [exact E|].
  unfold transform, transform_a, transform_b in E.
  unfold turn, attempt, turn_body, then_, read_text, write_text, print_line.
  cbn [files_at printed calls print_calls]. rewrite F.
  cbn [files_at printed calls print_calls]. rewrite F.
  cbn [files_at printed calls print_calls]. rewrite Hc, E.
  cbn [fst snd files_at printed]. rewrite put_same.
  repeat split; apply universal_newlines_id.
Qed.

Lemma unmatched_file_rewritten_witness :
  transform plain_module = plain_module /\
  fst (turn tree_resolve tty "api/units/index.ts" (State crlf_disk [] [] 0))
    = Returned tt /\
  files_at (snd (turn tree_resolve tty "api/units/index.ts"
                      (State crlf_disk [] [] 0))) 2
    = Regular plain_module Writable /\
  printed (snd (turn tree_resolve tty "api/units/index.ts"
                     (State crlf_disk [] [] 0)))
    = ["Fixed api/units/index.ts"%string].
Proof.
  destruct (unmatched_file_rewritten tree_resolve tty
              (State crlf_disk [] [] 0) "api/units/index.ts" crlf_module
              eq_refl eq_refl eq_refl eq_refl) as (H1 & H2 & H3 & H4 & _).
  repeat split; assumption.
Defined.

(** C9, as stated, fails on a file with the line ends of another system:
    the text read holds neither pattern, yet the file written back is not
    the file that was there, its carriage returns are gone. *)
Lemma crlf_file_not_identical :
  has_guard (universal_newlines crlf_module) = false /\
  has_closer (universal_newlines crlf_module) = false /\
  crlf_disk (tree_resolve "api/units/index.ts")
    = Regular crlf_module Writable /\
  files_at (snd (turn tree_resolve tty "api/units/index.ts"
                      (State crlf_disk [] [] 0)))
           (tree_resolve "api/units/index.ts")
    = Regular plain_module Writable /\
  plain_module <> crlf_module.
Proof.
  repeat split; try (vm_compute; reflexivity).
  intros H. apply (f_equal (@length char)) in H.
  vm_compute in H. discriminate.
Qed.

(* ------------------------------------------------------------------ *)
(** * The loop of [Script] is the process on a plain tree *)

Lemma no_cr_plain (raw : text) :
  negb (existsb (N.eqb cr) raw) = true -> universal_newlines raw = raw.
Proof.
  intros H. apply universal_newlines_id. intros Hin.
  apply negb_true_iff in H.
  assert (E : existsb (N.eqb cr) raw = true).
  { apply existsb_exists. exists cr. split; [exact Hin | apply N.eqb_refl]. }
  congruence.
Qed.

Section Simulation.
Variable resolve : string -> ino.
Variable con : console.
Hypothesis accepts : forall n, refuses con n = None.

(** One turn of the two loops on a plain file, from states that agree. *)
Lemma turn_simulates (x : string) (st : state) (w : world) :
  plain (files_at st (resolve x)) = true ->
  node_view (files_at st (resolve x)) = fs w x ->
  printed st = stdout w -> calls st = opened w ->
  fst (turn resolve con x st) = Returned tt /\
  printed (snd (turn resolve con x st)) = stdout (snd (patch_file x w)) /\
  calls (snd (turn resolve con x st)) = opened (snd (patch_file x w)) /\
  node_view (files_at (snd (turn resolve con x st)) (resolve x))
    = fs (snd (patch_file x w)) x.
Proof.
  intros Hp Hv Ho Hc.
  unfold turn, attempt, turn_body, then_, read_text, write_text, print_line.
  unfold patch_file, try_except, patch_body, bind, read_file, write_file,
    print.
  cbn [files_at printed calls print_calls fs stdout opened].
  rewrite <- Hv, <- Ho, <- Hc.
  destruct (files_at st (resolve x)) as [|e|raw [|e|e k]] eqn:F;
    try discriminate Hp;
    cbn [node_view on_read on_write files_at printed calls print_calls
         fs stdout opened];
    rewrite ?F, ?is_Exception_always, ?accepts;
    cbn [node_view on_read on_write files_at printed calls print_calls
         fs stdout opened fst snd];
    rewrite ?is_Exception_always, ?accepts, ?F;
    cbn [node_view on_read on_write files_at printed calls print_calls
         fs stdout opened fst snd].
  - repeat split. exact Hv.
  - cbn [plain] in Hp. rewrite (no_cr_plain raw Hp), put_same.
    unfold store. rewrite String.eqb_refl. repeat split.
  - repeat split. exact Hv.
Qed.

Lemma each_simulates (l : list string) :
  NoDup (map resolve l) ->
  forall st w,
    (forall p, In p l ->
               plain (files_at st (resolve p)) = true /\
               node_view (files_at st (resolve p)) = fs w p) ->
    printed st = stdout w -> calls st = opened w ->
    fst (each l (turn resolve con) st) = Returned tt /\
    printed (snd (each l (turn resolve con) st))
      = stdout (snd (for_each l patch_file w)) /\
    calls (snd (each l (turn resolve con) st))
      = opened (snd (for_each l patch_file w)) /\
    (forall p, In p l ->
               node_view (files_at (snd (each l (turn resolve con) st))
                                   (resolve p))
               = fs (snd (for_each l patch_file w)) p).
Proof.
  induction l as [|x l IH]; intros Hnd st w Hl Ho Hc.
  - cbn. repeat split; try assumption. intros p [].
  - cbn [map] in Hnd. apply NoDup_cons_iff in Hnd as [Hx Hnd].
    assert (Hxl : ~ In x l).
    { intros Hin. apply Hx. now apply in_map. }
    destruct (Hl x (or_introl eq_refl)) as [Px Vx].
    destruct (turn_simulates x st w Px Vx Ho Hc) as (R & O & C & V).
    destruct (turn_frame resolve con x st) as (Fr & _ & _).
    destruct (patch_file_spec x w) as (R' & _ & Fr' & _ & _).
    rewrite each_step, for_each_cons.
    destruct (turn resolve con x st) as [o st1].
    destruct (patch_file x w) as [o' w1].
    cbn [fst snd] in *. subst o o'.
    assert (Hl1 : forall p, In p l ->
                plain (files_at st1 (resolve p)) = true /\
                node_view (files_at st1 (resolve p)) = fs w1 p).
    { intros p Hp.
      assert (Hr : resolve p <> resolve x).
      { intros E. apply Hx. rewrite <- E. now apply in_map. }
      assert (Hpx : p <> x) by (intros ->; contradiction).
      rewrite (Fr _ Hr), (Fr' _ Hpx). apply Hl. now right. }
    destruct (IH Hnd st1 w1 Hl1 O C) as (R1 & O1 & C1 & V1).
    split; [exact R1|]. split; [exact O1|]. split; [exact C1|].
    intros p [<-|Hp]; [|now apply V1].
    destruct (each_frame resolve con l st1) as (Fe & _).
    rewrite (Fe _ Hx).
    assert (Hndl : NoDup l).
    { clear - Hnd. induction l as [|y l IH]; [constructor|].
      cbn [map] in Hnd. apply NoDup_cons_iff in Hnd as [Hy Hnd].
      constructor; [|now apply IH].
      intros Hin. apply Hy. now apply in_map. }
    destruct (for_each_spec l Hndl w1) as (_ & _ & Fo & _).
    rewrite (Fo x Hxl). exact V.
Qed.

End Simulation.

(** On a tree in which the listed paths lead to different plain files, with
    a standard output that takes every line, the process returns and
    prints, opens and leaves behind what [run] says. *)
Theorem run_is_process_on_plain_tree
        (resolve : string -> ino) (con : console) (fa : ino -> file) :
  NoDup (map resolve files) ->
  (forall p, In p files -> plain (fa (resolve p)) = true) ->
  (forall n, refuses con n = None) ->
  fst (process resolve con fa) = Returned tt /\
  printed (snd (process resolve con fa))
    = stdout (snd (run (fun p => node_view (fa (resolve p))))) /\
  calls (snd (process resolve con fa))
    = opened (snd (run (fun p => node_view (fa (resolve p))))) /\
  (forall p, In p files ->
             node_view (files_at (snd (process resolve con fa)) (resolve p))
             = fs (snd (run (fun p => node_view (fa (resolve p))))) p).
Proof.
  intros Hnd Hp Hc. unfold process, script, run, main.
  apply (each_simulates resolve con Hc files Hnd); try reflexivity.
  intros p Hin. split; [now apply Hp | reflexivity].
Qed.

Lemma run_is_process_on_plain_tree_witness :
  printed (snd (process tree_resolve tty leases_disk))
    = stdout (snd (run (fun p => node_view (leases_disk (tree_resolve p))))).
Proof.
  apply (run_is_process_on_plain_tree tree_resolve tty leases_disk).
  - vm_compute. repeat constructor; cbn; intuition discriminate.
  - intros p Hp. unfold leases_disk.
    destruct (Nat.eqb (tree_resolve p) 3); reflexivity.
  - reflexivity.
Defined.
